(** * Pronunciation-assessment API: the WAV container parser and the
      request pipeline around it

    A shallow embedding of [src/functions/assess.js] and
    [src/functions/token.js].  Node's [Buffer] is a list of bytes, JavaScript
    numbers are [Z] (every quantity the parser computes is an integer far
    below 2^53, where JavaScript arithmetic is exact), thrown exceptions are
    an explicit outcome, and every read of the buffer is recorded so that
    bounds can be stated about the reads themselves. *)

From Stdlib Require Import ZArith List String Ascii Bool Lia.
From Stdlib.Strings Require Import Byte.
From Stdlib.Floats Require Import SpecFloat.
From stdpp Require Import base option list strings pretty gmap.

Local Open Scope string_scope.
Local Open Scope list_scope.
Local Open Scope Z_scope.

(** ** Outcomes of JavaScript code *)

(** The exceptions this code can meet: [new Error(msg)] thrown by the
    repository's own code, and the [RangeError] / [TypeError] /
    [SyntaxError] of the Node runtime. *)
Inductive exn : Type :=
| Error (message : string)
| RangeError (message : string)
| TypeError (message : string)
| SyntaxError (message : string).

Definition exn_message (e : exn) : string :=
  match e with
  | Error m | RangeError m | TypeError m | SyntaxError m => m
  end.

Inductive result (A : Type) : Type :=
| Ok (a : A)
| Throw (e : exn)
| OutOfFuel.
Arguments Ok {A} a.
Arguments Throw {A} e.
Arguments OutOfFuel {A}.

(** A computation over a buffer: the byte ranges [(start, end)] it asked
    the buffer for, in order, and how it ended. *)
Record run (A : Type) : Type := Run {
  accesses : list (Z * Z);
  outcome : result A
}.
Arguments Run {A} accesses outcome.
Arguments accesses {A} r.
Arguments outcome {A} r.

#[global] Instance run_ret : MRet run := fun A a => Run [] (Ok a).

#[global] Instance run_bind : MBind run := fun A B f m =>
  match outcome m with
  | Ok a => Run (accesses m ++ accesses (f a)) (outcome (f a))
  | Throw e => Run (accesses m) (Throw e)
  | OutOfFuel => Run (accesses m) OutOfFuel
  end.

Definition throw {A : Type} (e : exn) : run A := Run [] (Throw e).

(** ** Node's Buffer *)

Definition buffer : Type := list byte.

Definition blen (buf : buffer) : Z := Z.of_nat (length buf).

Definition byte_val (b : byte) : Z := Z.of_N (Byte.to_N b).

(** [buf.subarray(s, e)] for [0 <= s]: the view is clamped to the buffer. *)
Definition subarray (buf : buffer) (s e : Z) : list byte :=
  take (Z.to_nat (e - s)) (drop (Z.to_nat s) buf).

(** Decoding with the ["ascii"] encoding clears the top bit of every byte
    before it is turned into a character (Node's documented behaviour). *)
Definition unset_high_bit (b : byte) : ascii :=
  match ascii_of_byte b with
  | Ascii b0 b1 b2 b3 b4 b5 b6 _ => Ascii b0 b1 b2 b3 b4 b5 b6 false
  end.

Fixpoint ascii_decode (bs : list byte) : string :=
  match bs with
  | [] => EmptyString
  | b :: rest => String (unset_high_bit b) (ascii_decode rest)
  end.

(** [buf.toString("ascii", s, e)]: asks for [s, e), never throws. *)
Definition toString_ascii (buf : buffer) (s e : Z) : run string :=
  Run [(s, e)] (Ok (ascii_decode (subarray buf s e))).

(** Little-endian value of a run of bytes. *)
Fixpoint le_value (bs : list byte) : Z :=
  match bs with
  | [] => 0
  | b :: rest => byte_val b + 256 * le_value rest
  end.

(** [buf.readUIntLE]-style read of [width] bytes at [off]; Node throws a
    RangeError unless [0 <= off <= buf.length - width]. *)
Definition readUIntLE (width : Z) (buf : buffer) (off : Z) : run Z :=
  Run [(off, off + width)]
      (if (0 <=? off) && (off + width <=? blen buf)
       then Ok (le_value (subarray buf off (off + width)))
       else Throw (RangeError "The value of offset is out of range.")).

Definition readUInt16LE : buffer -> Z -> run Z := readUIntLE 2.
Definition readUInt32LE : buffer -> Z -> run Z := readUIntLE 4.

(** ** parseWav *)

Record fmt_chunk : Type := Fmt {
  fmt_audioFormat : Z;
  fmt_numChannels : Z;
  fmt_sampleRate : Z;
  fmt_bitsPerSample : Z
}.

Record data_chunk : Type := Data {
  data_dataOffset : Z;
  data_dataSize : Z
}.

(** The object [{ ...fmt, ...data, pcmBytes }] that [parseWav] returns. *)
Record wav_header : Type := Header {
  audioFormat : Z;
  numChannels : Z;
  sampleRate : Z;
  bitsPerSample : Z;
  dataOffset : Z;
  dataSize : Z;
  pcmBytes : Z
}.

(** The variables of the scanning loop. *)
Record scan_state : Type := Scan {
  offset : Z;
  fmt : option fmt_chunk;
  data : option data_chunk
}.

Inductive step : Type :=
| Continue (st : scan_state)
| Break.

(** The lines of the loop body that handle a ["fmt "] chunk. *)
Definition read_fmt (buf : buffer) (payloadOffset size : Z) : run fmt_chunk :=
  if size <? 16 then throw (Error "Invalid WAV fmt chunk.")
  else
    audioFormat ← readUInt16LE buf (payloadOffset + 0);
    numChannels ← readUInt16LE buf (payloadOffset + 2);
    sampleRate ← readUInt32LE buf (payloadOffset + 4);
    bitsPerSample ← readUInt16LE buf (payloadOffset + 14);
    mret (Fmt audioFormat numChannels sampleRate bitsPerSample).

(** One pass through the body of [while (offset + 8 <= buf.length)]. *)
Definition scan_body (buf : buffer) (st : scan_state) : run step :=
  id ← toString_ascii buf (offset st) (offset st + 4);
  size ← readUInt32LE buf (offset st + 4);
  let payloadOffset := offset st + 8 in
  if blen buf <? payloadOffset + size then mret Break
  else
    fmt' ← (if String.eqb id "fmt "
            then f ← read_fmt buf payloadOffset size; mret (Some f)
            else mret (fmt st));
    let data' := if String.eqb id "data"
                 then Some (Data payloadOffset size)
                 else data st in
    mret (Continue (Scan (payloadOffset + size + Z.rem size 2) fmt' data')).

(** The loop, with a bound on the number of passes. *)
Fixpoint scan (fuel : nat) (buf : buffer) (st : scan_state) : run scan_state :=
  if offset st + 8 <=? blen buf then
    match fuel with
    | O => Run [] OutOfFuel
    | S fuel' =>
        r ← scan_body buf st;
        match r with
        | Break => mret st
        | Continue st' => scan fuel' buf st'
        end
    end
  else mret st.

Definition scan_init : scan_state := Scan 12 None None.

Definition parseWav (buf : buffer) : run wav_header :=
  if blen buf <? 12 then throw (Error "Invalid WAV buffer.")
  else
    chunkId ← toString_ascii buf 0 4;
    format ← toString_ascii buf 8 12;
    if negb (String.eqb chunkId "RIFF") || negb (String.eqb format "WAVE")
    then throw (Error "Invalid WAV: expected RIFF/WAVE.")
    else
      st ← scan (length buf) buf scan_init;
      match fmt st with
      | None => throw (Error "WAV missing fmt chunk.")
      | Some f =>
          match data st with
          | None => throw (Error "WAV missing data chunk.")
          | Some d =>
              mret (Header (fmt_audioFormat f) (fmt_numChannels f)
                           (fmt_sampleRate f) (fmt_bitsPerSample f)
                           (data_dataOffset d) (data_dataSize d)
                           (data_dataSize d))
          end
      end.

(** ** Building containers

    The writer's side of the format, used to state what the parser
    recovers: a container is the 12-byte header followed by its chunks,
    each chunk a 4-byte tag, the payload length as 4 little-endian bytes,
    the payload, and one pad byte when the payload length is odd. *)

Definition byte_of_Z (n : Z) : byte :=
  match Byte.of_N (Z.to_N (n mod 256)) with
  | Some b => b
  | None => x00
  end.

Fixpoint le_bytes (width : nat) (n : Z) : list byte :=
  match width with
  | O => []
  | S w => byte_of_Z n :: le_bytes w (n / 256)
  end.

Definition u16le : Z -> list byte := le_bytes 2.
Definition u32le : Z -> list byte := le_bytes 4.

Record chunk : Type := Chunk {
  tag : list byte;
  payload : list byte
}.

Definition pad (p : list byte) : list byte :=
  if Z.odd (blen p) then [x00] else [].

Definition encode_chunk (c : chunk) : list byte :=
  tag c ++ u32le (blen (payload c)) ++ payload c ++ pad (payload c).

(** A chunk written without its pad byte, as some writers leave the last
    chunk of a file. *)
Definition unpadded_chunk (c : chunk) : list byte :=
  tag c ++ u32le (blen (payload c)) ++ payload c.

Definition encode_chunks (cs : list chunk) : list byte :=
  concat (map encode_chunk cs).

Definition riff_header (body : list byte) : list byte :=
  list_byte_of_string "RIFF" ++ u32le (4 + blen body) ++
  list_byte_of_string "WAVE".

(** A container made of the chunks [cs], followed by [tail] (empty for a
    complete file). *)
Definition build_with (cs : list chunk) (tail : list byte) : buffer :=
  riff_header (encode_chunks cs ++ tail) ++ encode_chunks cs ++ tail.

Definition build (cs : list chunk) : buffer := build_with cs [].

(** The tag the parser sees for a chunk. *)
Definition chunk_id (c : chunk) : string := ascii_decode (tag c).

Definition is_fmt (c : chunk) : bool := String.eqb (chunk_id c) "fmt ".
Definition is_data (c : chunk) : bool := String.eqb (chunk_id c) "data".

(** A chunk a writer can emit and the parser accepts: a 4-byte tag, a
    length that fits 32 bits, and at least 16 bytes when it is a format
    chunk. *)
Definition wf_chunk (c : chunk) : Prop :=
  length (tag c) = 4%nat /\
  blen (payload c) < 2 ^ 32 /\
  (is_fmt c = true -> 16 <= blen (payload c)).

(** A chunk that is neither the format chunk nor the data chunk. *)
Definition other_chunk (c : chunk) : Prop :=
  wf_chunk c /\ is_fmt c = false /\ is_data c = false.

(** The four fields the parser takes from a format payload. *)
Definition fmt_of_payload (p : list byte) : fmt_chunk :=
  Fmt (le_value (subarray p 0 2)) (le_value (subarray p 2 4))
      (le_value (subarray p 4 8)) (le_value (subarray p 14 16)).

(** The 16-byte PCM format payload, optionally extended. *)
Definition fmt_payload (af nc sr byteRate blockAlign bps : Z)
    (ext : list byte) : list byte :=
  u16le af ++ u16le nc ++ u32le sr ++ u32le byteRate ++ u16le blockAlign ++
  u16le bps ++ ext.

Definition fmt_tag : list byte := list_byte_of_string "fmt ".
Definition data_tag : list byte := list_byte_of_string "data".

(** What one chunk written at [offset st] does to the loop variables. *)
Definition absorb (st : scan_state) (c : chunk) : scan_state :=
  let payloadOffset := offset st + 8 in
  let size := blen (payload c) in
  Scan (payloadOffset + size + Z.rem size 2)
       (if is_fmt c then Some (fmt_of_payload (payload c)) else fmt st)
       (if is_data c then Some (Data payloadOffset size) else data st).

Definition absorb_all (st : scan_state) (cs : list chunk) : scan_state :=
  fold_left absorb cs st.

(** The completeness check at the end of [parseWav], on the final loop
    variables. *)
Definition finish (st : scan_state) : result wav_header :=
  match fmt st with
  | None => Throw (Error "WAV missing fmt chunk.")
  | Some f =>
      match data st with
      | None => Throw (Error "WAV missing data chunk.")
      | Some d =>
          Ok (Header (fmt_audioFormat f) (fmt_numChannels f)
                     (fmt_sampleRate f) (fmt_bitsPerSample f)
                     (data_dataOffset d) (data_dataSize d)
                     (data_dataSize d))
      end
  end.

(** Bytes after the last chunk at which the loop stops: fewer than 8
    bytes, or a chunk header whose declared payload is longer than what
    is left. *)
Definition stops_scan (tail : list byte) : Prop :=
  blen tail < 8 \/
  blen tail - 8 < le_value (subarray tail 4 8).

(** A three-chunk fixture: format, a 3-byte chunk (odd, so padded), data. *)
Definition fixture_fmt : chunk :=
  Chunk fmt_tag (fmt_payload 1 1 16000 32000 2 16 []).
Definition fixture_odd : chunk :=
  Chunk (list_byte_of_string "LIST") [x61; x62; x63].
Definition fixture_samples : list byte := [x01; x02; x03; x04; x05; x06].
Definition fixture_data : chunk := Chunk data_tag fixture_samples.
Definition fixture : buffer := build [fixture_fmt; fixture_odd; fixture_data].

(** ** The loop as a transition system *)

(** A requested byte range lies within the buffer. *)
Definition in_bounds (buf : buffer) (a : Z * Z) : Prop :=
  0 <= fst a /\ fst a <= snd a /\ snd a <= blen buf.

(** The tag and the declared payload length of the chunk header at [off]. *)
Definition id_at (buf : buffer) (off : Z) : string :=
  ascii_decode (subarray buf off (off + 4)).

Definition size_at (buf : buffer) (off : Z) : Z :=
  le_value (subarray buf (off + 4) (off + 8)).

(** The format fields as read from a payload starting at [po]. *)
Definition fmt_at (buf : buffer) (po : Z) : fmt_chunk :=
  Fmt (le_value (subarray buf (po + 0) (po + 0 + 2)))
      (le_value (subarray buf (po + 2) (po + 2 + 2)))
      (le_value (subarray buf (po + 4) (po + 4 + 4)))
      (le_value (subarray buf (po + 14) (po + 14 + 2))).

(** The loop variables after a pass that neither breaks nor throws. *)
Definition next_state (buf : buffer) (st : scan_state) : scan_state :=
  let payloadOffset := offset st + 8 in
  let size := size_at buf (offset st) in
  Scan (payloadOffset + size + Z.rem size 2)
       (if String.eqb (id_at buf (offset st)) "fmt "
        then Some (fmt_at buf payloadOffset) else fmt st)
       (if String.eqb (id_at buf (offset st)) "data"
        then Some (Data payloadOffset size) else data st).

(** The states in which the loop condition is evaluated. *)
Inductive scanned (buf : buffer) : scan_state -> Prop :=
| scanned_init : scanned buf scan_init
| scanned_step (st st' : scan_state) :
    scanned buf st ->
    offset st + 8 <= blen buf ->
    outcome (scan_body buf st) = Ok (Continue st') ->
    scanned buf st'.

(** ** JavaScript values of the request pipeline *)

(** A JavaScript string: its UTF-16 code units. *)
Definition jsstring : Type := list N.

(** A string literal of the program (ASCII) as a JavaScript string. *)
Definition js (s : string) : jsstring := map Byte.to_N (list_byte_of_string s).

Fixpoint jsstring_eqb (a b : jsstring) : bool :=
  match a, b with
  | [], [] => true
  | x :: a', y :: b' => N.eqb x y && jsstring_eqb a' b'
  | _, _ => false
  end.

(** What [JSON.parse] can return.  An object lists its own properties in
    the order of the text; a later duplicate key wins. *)
#[warnings="-register-all"]
Inductive json : Type :=
| JNull
| JBool (b : bool)
| JNumber (x : spec_float)
| JString (s : jsstring)
| JArray (items : list json)
| JObject (members : list (jsstring * json)).

(** [obj.key] for a value that came out of [JSON.parse]; [None] is
    [undefined].  Only objects have such properties. *)
Definition get_member (key : jsstring) (members : list (jsstring * json))
    : option json :=
  snd <$> find (fun kv => jsstring_eqb (fst kv) key) (rev members).

Definition get_field (v : json) (key : string) : option json :=
  match v with
  | JObject members => get_member (js key) members
  | _ => None
  end.

(** JavaScript truthiness, of a value and of a possibly undefined one. *)
Definition truthy (v : json) : bool :=
  match v with
  | JNull => false
  | JBool b => b
  | JNumber (S754_zero _) | JNumber S754_nan => false
  | JNumber _ => true
  | JString s => negb (Nat.eqb (length s) 0)
  | JArray _ | JObject _ => true
  end.

Definition truthy_opt (v : option json) : bool :=
  match v with
  | Some v => truthy v
  | None => false
  end.

(** ** Buffer.from(string, "base64")

    Node's decoder is lenient: every character outside the base64 and
    URL-safe alphabets is skipped, decoding ends at the first ['='], what
    was collected is packed 4 characters to 3 bytes, and a final group of
    2 or 3 characters gives 1 or 2 bytes.  It looks at the low 8 bits of
    each code unit and never throws. *)
Definition unbase64 (c : N) : option Z :=
  let c := Z.of_N c in
  if (65 <=? c) && (c <=? 90) then Some (c - 65)
  else if (97 <=? c) && (c <=? 122) then Some (c - 97 + 26)
  else if (48 <=? c) && (c <=? 57) then Some (c - 48 + 52)
  else if (c =? 43) || (c =? 45) then Some 62
  else if (c =? 47) || (c =? 95) then Some 63
  else None.

Fixpoint sextets (s : jsstring) : list Z :=
  match s with
  | [] => []
  | c :: rest =>
      let c8 := (c mod 256)%N in
      match unbase64 c8 with
      | Some v => v :: sextets rest
      | None => if N.eqb c8 61 then [] else sextets rest
      end
  end.

Fixpoint pack_sextets (l : list Z) : list byte :=
  match l with
  | a :: b :: c :: d :: rest =>
      byte_of_Z (a * 4 + b / 16) :: byte_of_Z (b * 16 + c / 4) ::
      byte_of_Z (c * 64 + d) :: pack_sextets rest
  | [a; b; c] => [byte_of_Z (a * 4 + b / 16); byte_of_Z (b * 16 + c / 4)]
  | [a; b] => [byte_of_Z (a * 4 + b / 16)]
  | _ => []
  end.

Definition base64_decode (s : jsstring) : buffer := pack_sextets (sextets s).

(** ** Text encodings of a request body *)

(** [buf.toString("utf16le")]: one code unit per pair of bytes, low byte
    first; a trailing odd byte is left out. *)
Fixpoint utf16le_decode (bs : list byte) : jsstring :=
  match bs with
  | lo :: hi :: rest =>
      (Byte.to_N lo + 256 * Byte.to_N hi)%N :: utf16le_decode rest
  | _ => []
  end.

(** The bytes a client sends when it encodes its text as UTF-16LE. *)
Fixpoint utf16le_encode (s : jsstring) : list byte :=
  match s with
  | [] => []
  | c :: rest =>
      byte_of_Z (Z.of_N c) :: byte_of_Z (Z.of_N c / 256) :: utf16le_encode rest
  end.

(** ** The runtime and the services the handlers call

    What the handlers use and the repository does not define: UTF-8
    decoding and [JSON.parse] ([None] when it throws its SyntaxError),
    [Buffer.from] on a value that is not a string, the recognition call
    of the speech SDK together with the assembly of its result, and the
    token request (region, key).  A call that yields [OutOfFuel] is one
    that never completes.  Values that may be [undefined] are options. *)

Record assess_input : Type := AssessInput {
  in_speechKey : option string;
  in_speechRegion : option string;
  in_locale : option json;
  in_referenceText : option json;
  in_pcm : list byte;
  in_header : wav_header
}.

Class Runtime : Type := {
  utf8_decode : list byte -> jsstring;
  JSON_parse : jsstring -> option json;
  Buffer_from_other : option json -> result buffer;
  assessment : Type;
  recognizeOnce : assess_input -> result assessment;
  issueToken : option string -> option string -> result string
}.

(** ** HTTP responses *)

Inductive json_body {A : Type} : Type :=
| ErrorBody (error : string)
| TokenBody (token : string) (region : option string)
| AssessBody (a : A).
Arguments json_body A : clear implicits.

Record response (A : Type) : Type := Response {
  status : Z;
  jsonBody : json_body A
}.
Arguments Response {A} status jsonBody.
Arguments status {A} r.
Arguments jsonBody {A} r.

#[global] Instance result_ret : MRet result := fun A a => Ok a.

#[global] Instance result_bind : MBind result := fun A B f m =>
  match m with
  | Ok a => f a
  | Throw e => Throw e
  | OutOfFuel => OutOfFuel
  end.

(** [String(err)] for an error object. *)
Definition exn_to_string (e : exn) : string :=
  let name := match e with
              | Error _ => "Error"
              | RangeError _ => "RangeError"
              | TypeError _ => "TypeError"
              | SyntaxError _ => "SyntaxError"
              end in
  if String.eqb (exn_message e) EmptyString then name
  else name +:+ ": " +:+ exn_message e.

(** [err.message || String(err)] *)
Definition error_text (e : exn) : string :=
  if String.eqb (exn_message e) EmptyString then exn_to_string e else exn_message e.

(** [process.env]: a variable is a string or is not set; [a || b]. *)
Definition env_truthy (v : option string) : bool :=
  match v with
  | Some s => negb (String.eqb s EmptyString)
  | None => false
  end.

Definition env_or (a b : option string) : option string :=
  if env_truthy a then a else b.

(** ** The handlers *)

Section Handlers.
Context {rt : Runtime}.

(** [readJsonBody]: UTF-8 first, then UTF-16LE on the same bytes. *)
Definition readJsonBody (body : list byte) : result json :=
  match JSON_parse (utf8_decode body) with
  | Some v => Ok v
  | None =>
      match JSON_parse (utf16le_decode body) with
      | Some v => Ok v
      | None =>
          Throw (Error
            "Invalid JSON body (could not decode as UTF-8 or UTF-16LE).")
      end
  end.

(** [Buffer.from(audioBase64, "base64")] *)
Definition Buffer_from_base64 (v : option json) : result buffer :=
  match v with
  | Some (JString s) => Ok (base64_decode s)
  | _ => Buffer_from_other v
  end.

Definition error_response (code : Z) (msg : string) : response assessment :=
  Response code (ErrorBody msg).

(** Lines 130-232 of the handler: parse the container, check the codec,
    slice the samples, call the recognition service. *)
Definition assess_audio (speechKey speechRegion : option string)
    (locale referenceText : option json) (wavBuffer : buffer)
    : result (response assessment) :=
  header ← outcome (parseWav wavBuffer);
  if negb (audioFormat header =? 1) then
    mret (error_response 400
            ("audioFormat=" +:+ pretty (audioFormat header) +:+
             ". Expected PCM (1)."))
  else if negb (numChannels header =? 1) then
    mret (error_response 400
            ("channels=" +:+ pretty (numChannels header) +:+
             ". Expected mono (1)."))
  else if negb (bitsPerSample header =? 16) then
    mret (error_response 400
            ("bitsPerSample=" +:+ pretty (bitsPerSample header) +:+
             ". Expected 16."))
  else
    let pcm := subarray wavBuffer (dataOffset header)
                 (dataOffset header + dataSize header) in
    a ← recognizeOnce
          (AssessInput speechKey speechRegion locale referenceText pcm header);
    mret (Response 200 (AssessBody a)).

Definition assess_speechKey (env : gmap string string) : option string :=
  env_or (env !! "SPEECH_KEY") (env !! "AZURE_SPEECH_KEY").

Definition assess_speechRegion (env : gmap string string) : option string :=
  env_or (env !! "SPEECH_REGION") (env !! "AZURE_SPEECH_REGION").

(** [body || {}] *)
Definition fields_of (body : json) : json :=
  if truthy body then body else JObject [].

(** The body of the handler's [try]. *)
Definition assess_try (env : gmap string string) (request : list byte)
    : result (response assessment) :=
  body ← readJsonBody request;
  let fields := fields_of body in
  let audioBase64 := get_field fields "audioBase64" in
  let referenceText := get_field fields "referenceText" in
  let locale := get_field fields "locale" in
  if negb (truthy_opt audioBase64) then
    mret (error_response 400 "audioBase64 (string) is required.")
  else if negb (truthy_opt referenceText) then
    mret (error_response 400 "referenceText (string) is required.")
  else if negb (truthy_opt locale) then
    mret (error_response 400 "locale (string) is required.")
  else
    let speechKey := assess_speechKey env in
    let speechRegion := assess_speechRegion env in
    if negb (env_truthy speechKey) || negb (env_truthy speechRegion) then
      mret (error_response 500
              "Missing SPEECH_KEY or SPEECH_REGION in environment.")
    else
      wavBuffer ← Buffer_from_base64 audioBase64;
      assess_audio speechKey speechRegion locale referenceText wavBuffer.

(** The handler: whatever the [try] throws becomes a 500 response. *)
Definition assess_handler (env : gmap string string) (request : list byte)
    : result (response assessment) :=
  match assess_try env request with
  | Ok r => Ok r
  | Throw err => Ok (error_response 500 (error_text err))
  | OutOfFuel => OutOfFuel
  end.

(** The token handler of [token.js]. *)
Definition token_handler (env : gmap string string)
    : result (response assessment) :=
  let key := env !! "SPEECH_KEY" in
  let region := env_or (env !! "SPEECH_REGION") (Some "canadacentral") in
  if negb (env_truthy key) then
    Ok (error_response 500 "Missing SPEECH_KEY in local.settings.json")
  else
    match issueToken region key with
    | Ok token => Ok (Response 200 (TokenBody token region))
    | Throw e => Ok (error_response 500 (exn_message e))
    | OutOfFuel => OutOfFuel
    end.

(** A request that gets as far as [parseWav]: it decodes to [body], the
    three fields are truthy, key and region are configured, and the audio
    field turns into the buffer [wav]. *)
Definition reaches_parser (env : gmap string string) (request : list byte)
    (body : json) (wav : buffer) : Prop :=
  readJsonBody request = Ok body /\
  truthy_opt (get_field (fields_of body) "audioBase64") = true /\
  truthy_opt (get_field (fields_of body) "referenceText") = true /\
  truthy_opt (get_field (fields_of body) "locale") = true /\
  env_truthy (assess_speechKey env) = true /\
  env_truthy (assess_speechRegion env) = true /\
  Buffer_from_base64 (get_field (fields_of body) "audioBase64") = Ok wav.

End Handlers.

(** ** The error taxonomy of the specification

    The names the specification gives to the errors thrown in
    [readJsonBody] and [parseWav], by the message of the throw site. *)
Inductive error_kind : Type :=
| DecodeError
| InvalidContainer
| MissingFormatChunk
| MissingDataChunk.

Definition error_kind_of (e : exn) : option error_kind :=
  let m := exn_message e in
  if String.eqb m "Invalid JSON body (could not decode as UTF-8 or UTF-16LE)."
  then Some DecodeError
  else if String.eqb m "Invalid WAV buffer." ||
          String.eqb m "Invalid WAV: expected RIFF/WAVE." ||
          String.eqb m "Invalid WAV fmt chunk."
  then Some InvalidContainer
  else if String.eqb m "WAV missing fmt chunk." then Some MissingFormatChunk
  else if String.eqb m "WAV missing data chunk." then Some MissingDataChunk
  else None.

(** The characters that [Buffer.from(s, "base64")] does not skip. *)
Definition base64_significant (c : N) : bool :=
  match unbase64 (c mod 256)%N with
  | Some _ => true
  | None => N.eqb (c mod 256)%N 61
  end.

(** ** A runtime to run the handlers on concrete requests

    UTF-8 decoding by the usual state machine (U+FFFD for every
    ill-formed subsequence), a [JSON.parse] for objects, arrays, strings,
    the three literals and integers, and, in place of the speech service,
    a fake that hands back the samples it was given. *)

Definition utf16_of_code_point (cp : N) : jsstring :=
  if (cp <? 65536)%N then [cp]
  else [(55296 + (cp - 65536) / 1024)%N; (56320 + (cp - 65536) mod 1024)%N].

(** First byte of a sequence: the code units to emit at once, or the
    state [(needed, code point, lower, upper)] to continue with. *)
Definition utf8_lead (b : N) : jsstring + (nat * N * N * N) :=
  if (b <? 128)%N then inl [b]
  else if (194 <=? b)%N && (b <=? 223)%N then inr (1%nat, b - 192, 128, 191)%N
  else if (224 <=? b)%N && (b <=? 239)%N then
    inr (2%nat, b - 224, if (b =? 224)%N then 160 else 128,
         if (b =? 237)%N then 159 else 191)%N
  else if (240 <=? b)%N && (b <=? 244)%N then
    inr (3%nat, b - 240, if (b =? 240)%N then 144 else 128,
         if (b =? 244)%N then 143 else 191)%N
  else inl [65533%N].

Fixpoint utf8_scan (bs : list byte) (st : option (nat * N * N * N))
    : jsstring :=
  match bs with
  | [] => match st with Some _ => [65533%N] | None => [] end
  | b :: rest =>
      let start (pending : jsstring) :=
        match utf8_lead (Byte.to_N b) with
        | inl out => pending ++ out ++ utf8_scan rest None
        | inr st' => pending ++ utf8_scan rest (Some st')
        end in
      match st with
      | None => start []
      | Some (needed, cp, lower, upper) =>
          let c := Byte.to_N b in
          if (lower <=? c)%N && (c <=? upper)%N then
            let cp' := (cp * 64 + (c - 128))%N in
            match needed with
            | 1%nat => utf16_of_code_point cp' ++ utf8_scan rest None
            | _ => utf8_scan rest (Some (pred needed, cp', 128, 191)%N)
            end
          else start [65533%N]
      end
  end.

Definition utf8_to_string (bs : list byte) : jsstring := utf8_scan bs None.

Definition is_ws (c : N) : bool :=
  (c =? 32)%N || (c =? 9)%N || (c =? 10)%N || (c =? 13)%N.

Fixpoint skip_ws (s : jsstring) : jsstring :=
  match s with
  | c :: rest => if is_ws c then skip_ws rest else s
  | [] => []
  end.

Definition json_escape (c : N) : option N :=
  if (c =? 34)%N || (c =? 92)%N || (c =? 47)%N then Some c
  else if (c =? 98)%N then Some 8%N
  else if (c =? 102)%N then Some 12%N
  else if (c =? 110)%N then Some 10%N
  else if (c =? 114)%N then Some 13%N
  else if (c =? 116)%N then Some 9%N
  else None.

(** The characters of a string after its opening quote. *)
Fixpoint parse_string (s acc : jsstring) : option (jsstring * jsstring) :=
  match s with
  | [] => None
  | c :: rest =>
      if (c =? 34)%N then Some (rev acc, rest)
      else if (c <? 32)%N then None
      else if (c =? 92)%N then
        match rest with
        | e :: rest' =>
            match json_escape e with
            | Some c' => parse_string rest' (c' :: acc)
            | None => None
            end
        | [] => None
        end
      else parse_string rest (c :: acc)
  end.

Fixpoint parse_digits (s : jsstring) (acc : N) : N * jsstring :=
  match s with
  | c :: rest =>
      if (48 <=? c)%N && (c <=? 57)%N
      then parse_digits rest (10 * acc + (c - 48))%N
      else (acc, s)
  | [] => (acc, [])
  end.

Definition number_of_N (negative : bool) (n : N) : json :=
  match n with
  | N0 => JNumber (S754_zero negative)
  | Npos p => JNumber (S754_finite negative p 0)
  end.

Definition starts_with (prefix s : jsstring) : option jsstring :=
  if jsstring_eqb (take (length prefix) s) prefix
  then Some (drop (length prefix) s) else None.

Definition parse_atom (s : jsstring) : option (json * jsstring) :=
  match starts_with (js "true") s, starts_with (js "false") s,
        starts_with (js "null") s with
  | Some r, _, _ => Some (JBool true, r)
  | _, Some r, _ => Some (JBool false, r)
  | _, _, Some r => Some (JNull, r)
  | _, _, _ =>
      let '(negative, digits) :=
        match s with
        | c :: rest => if (c =? 45)%N then (true, rest) else (false, s)
        | [] => (false, s)
        end in
      match digits with
      | d :: rest =>
          if (49 <=? d)%N && (d <=? 57)%N
          then let '(n, r) := parse_digits digits 0 in
               Some (number_of_N negative n, r)
          else if (d =? 48)%N then Some (number_of_N negative 0, rest)
          else None
      | [] => None
      end
  end.

Fixpoint parse_value (fuel : nat) (s : jsstring) : option (json * jsstring) :=
  match fuel with
  | O => None
  | S fuel' =>
      match skip_ws s with
      | [] => None
      | c :: rest =>
          if (c =? 34)%N then
            '(str, r) ← parse_string rest []; Some (JString str, r)
          else if (c =? 123)%N then
            match skip_ws rest with
            | c' :: r =>
                if (c' =? 125)%N then Some (JObject [], r)
                else parse_members fuel' rest []
            | [] => None
            end
          else if (c =? 91)%N then
            match skip_ws rest with
            | c' :: r =>
                if (c' =? 93)%N then Some (JArray [], r)
                else parse_items fuel' rest []
            | [] => None
            end
          else parse_atom (c :: rest)
      end
  end
with parse_members (fuel : nat) (s : jsstring) (acc : list (jsstring * json))
    : option (json * jsstring) :=
  match fuel with
  | O => None
  | S fuel' =>
      match skip_ws s with
      | q :: r0 =>
          if (q =? 34)%N then
            '(key, r1) ← parse_string r0 [];
            match skip_ws r1 with
            | colon :: r2 =>
                if (colon =? 58)%N then
                  '(v, r3) ← parse_value fuel' r2;
                  match skip_ws r3 with
                  | sep :: r4 =>
                      if (sep =? 44)%N
                      then parse_members fuel' r4 (acc ++ [(key, v)])
                      else if (sep =? 125)%N
                      then Some (JObject (acc ++ [(key, v)]), r4)
                      else None
                  | [] => None
                  end
                else None
            | [] => None
            end
          else None
      | [] => None
      end
  end
with parse_items (fuel : nat) (s : jsstring) (acc : list json)
    : option (json * jsstring) :=
  match fuel with
  | O => None
  | S fuel' =>
      '(v, r) ← parse_value fuel' s;
      match skip_ws r with
      | sep :: r' =>
          if (sep =? 44)%N then parse_items fuel' r' (acc ++ [v])
          else if (sep =? 93)%N then Some (JArray (acc ++ [v]), r')
          else None
      | [] => None
      end
  end.

Definition json_parse (text : jsstring) : option json :=
  '(v, rest) ← parse_value (2 * length text + 2) text;
  match skip_ws rest with
  | [] => Some v
  | _ :: _ => None
  end.

Definition test_runtime : Runtime := {|
  utf8_decode := utf8_to_string;
  JSON_parse := json_parse;
  Buffer_from_other := fun _ =>
    Throw (TypeError "The first argument must be of type string or an instance of Buffer, ArrayBuffer, or Array or an Array-like Object.");
  assessment := list byte;
  recognizeOnce := fun input => Ok (in_pcm input);
  issueToken := fun region key => Ok ("token:" +:+ default EmptyString key)
|}.

(** The client's base64 encoder, to put a container into a request. *)
Definition base64_char (v : Z) : ascii :=
  ascii_of_nat (Z.to_nat
    (if v <? 26 then 65 + v
     else if v <? 52 then 97 + (v - 26)
     else if v <? 62 then 48 + (v - 52)
     else if v =? 62 then 43 else 47)).

Fixpoint base64_encode (bs : list byte) : string :=
  match bs with
  | a :: b :: c :: rest =>
      let n := byte_val a * 65536 + byte_val b * 256 + byte_val c in
      String (base64_char (n / 262144))
        (String (base64_char (n / 4096 mod 64))
           (String (base64_char (n / 64 mod 64))
              (String (base64_char (n mod 64)) (base64_encode rest))))
  | [a; b] =>
      let n := byte_val a * 65536 + byte_val b * 256 in
      String (base64_char (n / 262144))
        (String (base64_char (n / 4096 mod 64))
           (String (base64_char (n / 64 mod 64)) "="))
  | [a] =>
      let n := byte_val a * 65536 in
      String (base64_char (n / 262144))
        (String (base64_char (n / 4096 mod 64)) "==")
  | [] => EmptyString
  end.

(** Requests and environments for the examples. *)
Definition utf8_bytes (s : string) : list byte := list_byte_of_string s.

Definition configured_env : gmap string string :=
  <["SPEECH_KEY" := "key1"]> (<["SPEECH_REGION" := "eastus"]> ∅).

(** A JSON object text with three string members, put together from
    its parts. *)
Definition quoted (s : string) : string :=
  String (ascii_of_nat 34) s +:+ String (ascii_of_nat 34) EmptyString.

Definition member (key value : string) : string :=
  quoted key +:+ ":" +:+ quoted value.

(** The request object with [audio] as its audioBase64, the reference
    text [ni hao] and the locale [zh-CN]. *)
Definition request_text (audio : string) : string :=
  "{" +:+ member "audioBase64" audio +:+ "," +:+
  member "referenceText" "ni hao" +:+ "," +:+
  member "locale" "zh-CN" +:+ "}".

(** base64 of three zero bytes: not a container. *)
Definition request_not_wav : list byte := utf8_bytes (request_text "AAAA").

Definition request_of_wav (wav : buffer) : list byte :=
  utf8_bytes (request_text (base64_encode wav)).

(** The fixture with its first byte, ['R'] = 0x52, replaced by 0xD2. *)
Definition high_bit_fixture : buffer := xd2 :: tail fixture.

(** Only the second name of the key is set. *)
Definition azure_only_env : gmap string string :=
  <["AZURE_SPEECH_KEY" := "key2"]> (<["AZURE_SPEECH_REGION" := "westus"]> ∅).

(** A request object without a locale. *)
Definition request_without_locale : list byte :=
  utf8_bytes ("{" +:+ member "audioBase64" "AAAA" +:+ "," +:+
              member "referenceText" "ni hao" +:+ "}").

(** A two-channel 16-bit PCM file. *)
Definition stereo_fixture : buffer :=
  build [Chunk fmt_tag (fmt_payload 1 2 16000 64000 4 16 []); fixture_data].

(** * Properties *)

(** ** The parser on small inputs *)

Example fixture_parses :
  outcome (parseWav fixture) = Ok (Header 1 1 16000 16 56 6 6).
Proof. vm_compute. reflexivity. Qed.

Example header_only_misses_fmt :
  outcome (parseWav (build [])) = Throw (Error "WAV missing fmt chunk.").
Proof. vm_compute. reflexivity. Qed.

Example fmt_only_misses_data :
  outcome (parseWav (build [fixture_fmt])) =
  Throw (Error "WAV missing data chunk.").
Proof. vm_compute. reflexivity. Qed.

Example short_fmt_is_fatal :
  outcome (parseWav (build [Chunk fmt_tag (u16le 1 ++ u16le 1 ++ u32le 16000);
                            fixture_data])) =
  Throw (Error "Invalid WAV fmt chunk.").
Proof. vm_compute. reflexivity. Qed.

Example fixture_reads :
  accesses (parseWav fixture) =
  [(0, 4); (8, 12); (12, 16); (16, 20); (20, 22); (22, 24); (24, 28);
   (34, 36); (36, 40); (40, 44); (48, 52); (52, 56)].
Proof. vm_compute. reflexivity. Qed.

(** ** The [run] monad *)

Lemma outcome_bind {A B : Type} (m : run A) (f : A -> run B) :
  outcome (m ≫= f) =
  match outcome m with
  | Ok a => outcome (f a)
  | Throw e => Throw e
  | OutOfFuel => OutOfFuel
  end.
Proof. unfold mbind, run_bind. destruct (outcome m); reflexivity. Qed.

Lemma accesses_bind {A B : Type} (m : run A) (f : A -> run B) :
  accesses (m ≫= f) =
  accesses m ++ match outcome m with
                | Ok a => accesses (f a)
                | _ => []
                end.
Proof.
  unfold mbind, run_bind.
  destruct (outcome m); simpl; rewrite ?app_nil_r; reflexivity.
Qed.

Lemma outcome_ret {A : Type} (a : A) : outcome (mret a : run A) = Ok a.
Proof. reflexivity. Qed.

(** ** Bytes and little-endian numbers *)

Lemma byte_val_range (b : byte) : 0 <= byte_val b < 256.
Proof.
  unfold byte_val. pose proof (Byte.to_N_bounded b). lia.
Qed.

Lemma byte_val_of_Z (n : Z) : byte_val (byte_of_Z n) = n mod 256.
Proof.
  unfold byte_val, byte_of_Z.
  pose proof (Z.mod_pos_bound n 256 ltac:(lia)) as Hr.
  destruct (Byte.of_N (Z.to_N (n mod 256))) as [b|] eqn:E.
  - apply Byte.to_of_N in E. rewrite E. lia.
  - apply Byte.of_N_None_iff in E. lia.
Qed.

Lemma length_le_bytes (w : nat) (n : Z) : length (le_bytes w n) = w.
Proof. revert n. induction w as [|w IH]; intros n; simpl; auto. Qed.

Lemma le_value_le_bytes (w : nat) (n : Z) :
  le_value (le_bytes w n) = n mod 256 ^ Z.of_nat w.
Proof.
  revert n. induction w as [|w IH]; intros n.
  - simpl. rewrite Z.mod_1_r. reflexivity.
  - cbn [le_bytes le_value]. rewrite byte_val_of_Z, IH.
    rewrite Nat2Z.inj_succ, Z.pow_succ_r by lia.
    rewrite Z.rem_mul_r by lia. lia.
Qed.

Lemma le_value_bounds (bs : list byte) :
  0 <= le_value bs < 256 ^ blen bs.
Proof.
  unfold blen. induction bs as [|b bs IH].
  - simpl. lia.
  - cbn [le_value length]. rewrite Nat2Z.inj_succ, Z.pow_succ_r by lia.
    pose proof (byte_val_range b). lia.
Qed.

Lemma le_value_u32le (n : Z) : 0 <= n < 2 ^ 32 -> le_value (u32le n) = n.
Proof.
  intros H. unfold u32le. rewrite le_value_le_bytes.
  apply Z.mod_small. change (256 ^ Z.of_nat 4) with (2 ^ 32). lia.
Qed.

Lemma le_value_u16le (n : Z) : 0 <= n < 2 ^ 16 -> le_value (u16le n) = n.
Proof.
  intros H. unfold u16le. rewrite le_value_le_bytes.
  apply Z.mod_small. change (256 ^ Z.of_nat 2) with (2 ^ 16). lia.
Qed.

(** ** Views of a buffer *)

Lemma blen_app (a b : list byte) : blen (a ++ b) = blen a + blen b.
Proof. unfold blen. rewrite length_app. lia. Qed.

Lemma blen_nonneg (a : list byte) : 0 <= blen a.
Proof. unfold blen. lia. Qed.

Lemma blen_subarray (buf : buffer) (s e : Z) :
  0 <= s -> s <= e -> e <= blen buf -> blen (subarray buf s e) = e - s.
Proof.
  unfold blen, subarray. intros.
  rewrite length_take, length_drop. lia.
Qed.

Lemma subarray_all (l : list byte) : subarray l 0 (blen l) = l.
Proof.
  unfold subarray, blen. rewrite Z.sub_0_r, Nat2Z.id. simpl.
  apply firstn_all.
Qed.

(** A view that lies inside the middle part of a buffer only sees that
    part. *)
Lemma subarray_inside (pre l post : list byte) (s e : Z) :
  0 <= s -> s <= e -> e <= blen l ->
  subarray (pre ++ l ++ post) (blen pre + s) (blen pre + e) = subarray l s e.
Proof.
  unfold subarray, blen. intros Hs Hse He.
  replace (Z.of_nat (length pre) + e - (Z.of_nat (length pre) + s))
    with (e - s) by lia.
  replace (Z.to_nat (Z.of_nat (length pre) + s))
    with (length pre + Z.to_nat s)%nat by lia.
  rewrite drop_app_add'  by reflexivity.
  rewrite drop_app_le by lia.
  rewrite take_app_le; [reflexivity|].
  rewrite length_drop. lia.
Qed.

Lemma subarray_exact (pre l post : list byte) (s e : Z) :
  s = blen pre -> e = blen pre + blen l ->
  subarray (pre ++ l ++ post) s e = l.
Proof.
  intros -> ->. pose proof (blen_nonneg l).
  rewrite <- (Z.add_0_r (blen pre)) at 1.
  rewrite subarray_inside by lia. apply subarray_all.
Qed.

(** ** Reads *)

Lemma outcome_readUIntLE (w : Z) (buf : buffer) (off : Z) :
  0 <= off -> off + w <= blen buf ->
  outcome (readUIntLE w buf off) = Ok (le_value (subarray buf off (off + w))).
Proof.
  intros H0 H1. unfold readUIntLE. simpl.
  destruct (Z.leb_spec 0 off); [|lia].
  destruct (Z.leb_spec (off + w) (blen buf)); [|lia]. reflexivity.
Qed.

Lemma outcome_readUIntLE_inside (w : Z) (pre l post : list byte) (k : Z) :
  0 <= k -> 0 <= w -> k + w <= blen l ->
  outcome (readUIntLE w (pre ++ l ++ post) (blen pre + k)) =
  Ok (le_value (subarray l k (k + w))).
Proof.
  intros Hk Hw Hl. pose proof (blen_nonneg pre). pose proof (blen_nonneg post).
  rewrite outcome_readUIntLE by (rewrite ?blen_app; lia).
  rewrite <- Z.add_assoc, subarray_inside by lia. reflexivity.
Qed.

Lemma outcome_read_fmt (pre p post : list byte) :
  16 <= blen p ->
  outcome (read_fmt (pre ++ p ++ post) (blen pre) (blen p)) =
  Ok (fmt_of_payload p).
Proof.
  intros Hp. unfold read_fmt, readUInt16LE, readUInt32LE.
  destruct (Z.ltb_spec (blen p) 16); [lia|].
  repeat (rewrite outcome_bind, outcome_readUIntLE_inside by lia).
  reflexivity.
Qed.

(** ** One chunk, one pass of the loop *)

Lemma blen_tag (c : chunk) : wf_chunk c -> blen (tag c) = 4.
Proof. intros [H _]. unfold blen. rewrite H. reflexivity. Qed.

Lemma blen_u32le (n : Z) : blen (u32le n) = 4.
Proof. unfold blen, u32le. rewrite length_le_bytes. reflexivity. Qed.

Lemma blen_u16le (n : Z) : blen (u16le n) = 2.
Proof. unfold blen, u16le. rewrite length_le_bytes. reflexivity. Qed.

Lemma blen_pad (p : list byte) : blen (pad p) = Z.rem (blen p) 2.
Proof.
  unfold pad. pose proof (blen_nonneg p) as Hp.
  rewrite Z.rem_mod_nonneg by lia.
  rewrite Zmod_odd. destruct (Z.odd (blen p)); reflexivity.
Qed.

Lemma blen_encode_chunk (c : chunk) :
  wf_chunk c ->
  blen (encode_chunk c) =
  8 + blen (payload c) + Z.rem (blen (payload c)) 2.
Proof.
  intros Hc. unfold encode_chunk.
  rewrite !blen_app, blen_tag, blen_u32le, blen_pad by assumption. lia.
Qed.

Lemma scan_body_chunk (pre post : list byte) (c : chunk) (st : scan_state) :
  wf_chunk c -> offset st = blen pre ->
  outcome (scan_body (pre ++ encode_chunk c ++ post) st) =
  Ok (Continue (absorb st c)).
Proof.
  intros Hc Hoff. pose proof Hc as (Htag & Hsize & Hfmt).
  pose proof (blen_tag c Hc) as Ht4.
  pose proof (blen_nonneg pre) as Hpre. pose proof (blen_nonneg post) as Hpost.
  pose proof (blen_nonneg (payload c)) as Hpay.
  pose proof (blen_encode_chunk c Hc) as Henc.
  assert (0 <= Z.rem (blen (payload c)) 2 <= 1) as Hrem.
  { rewrite Z.rem_mod_nonneg by lia.
    pose proof (Z.mod_pos_bound (blen (payload c)) 2). lia. }
  unfold scan_body. rewrite Hoff.
  rewrite outcome_bind. cbn [toString_ascii outcome].
  assert (subarray (pre ++ encode_chunk c ++ post) (blen pre) (blen pre + 4)
          = tag c) as ->.
  { unfold encode_chunk. rewrite <- !app_assoc.
    apply subarray_exact; lia. }
  rewrite outcome_bind.
  assert (outcome (readUInt32LE (pre ++ encode_chunk c ++ post) (blen pre + 4))
          = Ok (blen (payload c))) as ->.
  { unfold readUInt32LE. rewrite outcome_readUIntLE by (rewrite ?blen_app; lia).
    f_equal. unfold encode_chunk. rewrite <- !app_assoc.
    rewrite (app_assoc pre (tag c)).
    rewrite subarray_exact
      by (rewrite ?blen_app, ?blen_u32le; lia).
    apply le_value_u32le. lia. }
  destruct (Z.ltb_spec (blen (pre ++ encode_chunk c ++ post))
              (blen pre + 8 + blen (payload c))) as [Hlt|_].
  { rewrite !blen_app in Hlt. lia. }
  rewrite outcome_bind. unfold absorb. rewrite Hoff.
  fold (chunk_id c). fold (is_fmt c). fold (is_data c).
  destruct (is_fmt c) eqn:Ef.
  - rewrite outcome_bind.
    assert (outcome (read_fmt (pre ++ encode_chunk c ++ post) (blen pre + 8)
                       (blen (payload c))) = Ok (fmt_of_payload (payload c)))
      as ->.
    { unfold encode_chunk. rewrite <- !app_assoc.
      rewrite (app_assoc pre (tag c)), (app_assoc (pre ++ tag c)).
      replace (blen pre + 8) with (blen ((pre ++ tag c) ++ u32le (blen (payload c))))
        by (rewrite !blen_app, blen_u32le; lia).
      apply outcome_read_fmt. auto. }
    reflexivity.
  - reflexivity.
Qed.

(** ** The loop over a sequence of chunks *)

Lemma offset_absorb (pre : list byte) (c : chunk) (st : scan_state) :
  wf_chunk c -> offset st = blen pre ->
  offset (absorb st c) = blen (pre ++ encode_chunk c).
Proof.
  intros Hc Hoff. unfold absorb. cbn [offset].
  rewrite blen_app, blen_encode_chunk, Hoff by assumption. lia.
Qed.

Lemma scan_stops (fuel : nat) (pre tail : list byte) (st : scan_state) :
  offset st = blen pre -> stops_scan tail -> (0 < fuel)%nat ->
  outcome (scan fuel (pre ++ tail) st) = Ok st.
Proof.
  intros Hoff Hstop Hfuel. pose proof (blen_nonneg pre) as Hpre.
  destruct fuel as [|fuel]; [lia|]. cbn [scan].
  rewrite Hoff, blen_app.
  destruct (Z.leb_spec (blen pre + 8) (blen pre + blen tail)) as [Hle|Hgt];
    [|reflexivity].
  destruct Hstop as [Hshort|Hlong]; [lia|].
  rewrite outcome_bind. unfold scan_body. rewrite Hoff.
  rewrite outcome_bind. cbn [toString_ascii outcome].
  rewrite outcome_bind.
  assert (outcome (readUInt32LE (pre ++ tail) (blen pre + 4))
          = Ok (le_value (subarray tail 4 8))) as ->.
  { unfold readUInt32LE.
    rewrite <- (app_nil_r tail) at 1.
    rewrite outcome_readUIntLE_inside by lia. reflexivity. }
  rewrite blen_app.
  destruct (Z.ltb_spec (blen pre + blen tail)
              (blen pre + 8 + le_value (subarray tail 4 8))); [|lia].
  reflexivity.
Qed.

Lemma scan_chunks (cs : list chunk) :
  forall (fuel : nat) (pre tail : list byte) (st : scan_state),
    Forall wf_chunk cs -> offset st = blen pre -> stops_scan tail ->
    (length cs < fuel)%nat ->
    outcome (scan fuel (pre ++ encode_chunks cs ++ tail) st) =
    Ok (absorb_all st cs).
Proof.
  induction cs as [|c cs IH]; intros fuel pre tail st Hwf Hoff Hstop Hfuel.
  - cbn [encode_chunks map concat app absorb_all fold_left].
    apply scan_stops; auto.
  - apply Forall_cons in Hwf as [Hc Hcs].
    destruct fuel as [|fuel]; [simpl in Hfuel; lia|].
    unfold encode_chunks. cbn [map concat]. fold (encode_chunks cs).
    rewrite <- app_assoc. cbn [scan].
    pose proof (blen_encode_chunk c Hc) as Henc.
    pose proof (blen_nonneg (payload c)) as Hpay.
    pose proof (blen_nonneg (encode_chunks cs)) as Hrest.
    pose proof (blen_nonneg tail) as Htail.
    assert (0 <= Z.rem (blen (payload c)) 2) as Hrem
      by (apply Z.rem_nonneg; lia).
    destruct (Z.leb_spec (offset st + 8)
                (blen (pre ++ encode_chunk c ++ encode_chunks cs ++ tail)))
      as [_|Hgt]; [|rewrite !blen_app in Hgt; lia].
    rewrite outcome_bind, scan_body_chunk by assumption.
    rewrite (app_assoc pre).
    rewrite IH; auto using offset_absorb.
    simpl in Hfuel. lia.
Qed.

(** ** [parseWav] on a built container *)

Lemma length_encode_chunks (cs : list chunk) :
  Forall wf_chunk cs -> (length cs <= length (encode_chunks cs))%nat.
Proof.
  induction 1 as [|c cs Hc _ IH]; [simpl; lia|].
  unfold encode_chunks. cbn [map concat]. fold (encode_chunks cs).
  rewrite length_app. pose proof (blen_encode_chunk c Hc) as Henc.
  pose proof (blen_nonneg (payload c)).
  assert (0 <= Z.rem (blen (payload c)) 2) by (apply Z.rem_nonneg; lia).
  unfold blen in *. simpl. lia.
Qed.

Lemma blen_riff_header (body : list byte) : blen (riff_header body) = 12.
Proof. unfold riff_header. rewrite !blen_app, blen_u32le. reflexivity. Qed.

Lemma parseWav_build_with (cs : list chunk) (tail : list byte) :
  Forall wf_chunk cs -> stops_scan tail ->
  outcome (parseWav (build_with cs tail)) = finish (absorb_all scan_init cs).
Proof.
  intros Hwf Hstop. unfold parseWav, build_with.
  set (body := encode_chunks cs ++ tail).
  pose proof (blen_riff_header body) as Hhdr.
  pose proof (blen_nonneg body) as Hbody.
  destruct (Z.ltb_spec (blen (riff_header body ++ body)) 12) as [Hlt|_];
    [rewrite blen_app in Hlt; lia|].
  rewrite outcome_bind. cbn [toString_ascii outcome].
  rewrite outcome_bind. cbn [toString_ascii outcome].
  assert (subarray (riff_header body ++ body) 0 4 = list_byte_of_string "RIFF")
    as ->.
  { unfold riff_header. rewrite <- !app_assoc.
    apply (subarray_exact []); reflexivity. }
  assert (subarray (riff_header body ++ body) 8 12 = list_byte_of_string "WAVE")
    as ->.
  { unfold riff_header. rewrite <- !app_assoc.
    rewrite app_assoc.
    apply subarray_exact; rewrite blen_app, blen_u32le; reflexivity. }
  cbn [negb orb].
  change (String.eqb (ascii_decode (list_byte_of_string "RIFF")) "RIFF")
    with true.
  change (String.eqb (ascii_decode (list_byte_of_string "WAVE")) "WAVE")
    with true.
  cbn [negb orb]. rewrite outcome_bind.
  subst body. rewrite scan_chunks; auto.
  - unfold finish. destruct (fmt (absorb_all scan_init cs)); [|reflexivity].
    destruct (data (absorb_all scan_init cs)); reflexivity.
  - rewrite !length_app. pose proof (length_encode_chunks cs Hwf).
    unfold blen in Hhdr. lia.
Qed.

Lemma stops_scan_nil : stops_scan [].
Proof. left. reflexivity. Qed.

Lemma parseWav_build (cs : list chunk) :
  Forall wf_chunk cs ->
  outcome (parseWav (build cs)) = finish (absorb_all scan_init cs).
Proof. intros Hwf. apply parseWav_build_with; auto using stops_scan_nil. Qed.

(** ** What one pass of the loop does, on any buffer *)

Lemma size_at_range (buf : buffer) (off : Z) :
  0 <= off -> off + 8 <= blen buf -> 0 <= size_at buf off < 2 ^ 32.
Proof.
  intros H0 H8. unfold size_at.
  pose proof (le_value_bounds (subarray buf (off + 4) (off + 8))) as Hb.
  rewrite blen_subarray in Hb by lia.
  replace (off + 8 - (off + 4)) with 4 in Hb by lia.
  change (256 ^ 4) with (2 ^ 32) in Hb. exact Hb.
Qed.

Ltac in_bounds_tac :=
  repeat match goal with
         | |- Forall _ (_ ++ _) => apply Forall_app; split
         | |- Forall _ (_ :: _) => constructor
         | |- Forall _ [] => constructor
         | |- in_bounds _ _ => unfold in_bounds; cbn [fst snd]; lia
         | |- _ => assumption
         end.

Lemma read_fmt_spec (buf : buffer) (po size : Z) :
  0 <= po -> po + size <= blen buf ->
  Forall (in_bounds buf) (accesses (read_fmt buf po size)) /\
  outcome (read_fmt buf po size) =
  if size <? 16 then Throw (Error "Invalid WAV fmt chunk.")
  else Ok (fmt_at buf po).
Proof.
  intros Hpo Hsz. unfold read_fmt.
  destruct (Z.ltb_spec size 16) as [Hlt|Hge].
  - split; [constructor|reflexivity].
  - unfold readUInt16LE, readUInt32LE.
    rewrite !accesses_bind, !outcome_bind.
    repeat (rewrite outcome_readUIntLE by lia;
            rewrite ?accesses_bind, ?outcome_bind).
    split; [|reflexivity].
    cbn [readUIntLE accesses mret run_ret app]. in_bounds_tac.
Qed.

Lemma scan_body_spec (buf : buffer) (st : scan_state) :
  0 <= offset st -> offset st + 8 <= blen buf ->
  Forall (in_bounds buf) (accesses (scan_body buf st)) /\
  outcome (scan_body buf st) =
  if blen buf <? offset st + 8 + size_at buf (offset st) then Ok Break
  else if String.eqb (id_at buf (offset st)) "fmt " &&
          (size_at buf (offset st) <? 16)
       then Throw (Error "Invalid WAV fmt chunk.")
       else Ok (Continue (next_state buf st)).
Proof.
  intros H0 H8. pose proof (size_at_range buf (offset st) H0 H8) as Hsize.
  unfold scan_body. rewrite accesses_bind, outcome_bind.
  cbn [toString_ascii accesses outcome].
  rewrite accesses_bind, outcome_bind. unfold readUInt32LE.
  rewrite outcome_readUIntLE by lia.
  replace (offset st + 4 + 4) with (offset st + 8) by lia.
  fold (size_at buf (offset st)). fold (id_at buf (offset st)).
  cbn [readUIntLE accesses].
  destruct (Z.ltb_spec (blen buf) (offset st + 8 + size_at buf (offset st)))
    as [Hbrk|Hfit].
  - split; [|reflexivity]. cbn [mret run_ret accesses app]. in_bounds_tac.
  - rewrite accesses_bind, outcome_bind. unfold next_state.
    destruct (String.eqb (id_at buf (offset st)) "fmt ") eqn:Efmt.
    + rewrite accesses_bind, outcome_bind.
      destruct (read_fmt_spec buf (offset st + 8) (size_at buf (offset st)))
        as [Hacc Hout]; [lia|lia|].
      rewrite Hout. cbn [andb].
      destruct (Z.ltb_spec (size_at buf (offset st)) 16);
        (split; [|reflexivity]); cbn [mret run_ret accesses outcome];
        in_bounds_tac.
    + cbn [andb mret run_ret accesses outcome app]. split; [|reflexivity].
      in_bounds_tac.
Qed.

Lemma scan_body_continue (buf : buffer) (st st' : scan_state) :
  0 <= offset st -> offset st + 8 <= blen buf ->
  outcome (scan_body buf st) = Ok (Continue st') ->
  st' = next_state buf st /\
  offset st + 8 + size_at buf (offset st) <= blen buf.
Proof.
  intros H0 H8 Hout.
  destruct (scan_body_spec buf st H0 H8) as [_ Hspec].
  rewrite Hspec in Hout.
  destruct (Z.ltb_spec (blen buf) (offset st + 8 + size_at buf (offset st)));
    [discriminate|].
  destruct (String.eqb (id_at buf (offset st)) "fmt " &&
            (size_at buf (offset st) <? 16)); [discriminate|].
  split; [congruence|lia].
Qed.

(** ** Invariants of the loop *)

Lemma rem2_range (n : Z) : 0 <= n -> 0 <= Z.rem n 2 <= 1.
Proof.
  intros Hn. rewrite Z.rem_mod_nonneg by lia.
  pose proof (Z.mod_pos_bound n 2). lia.
Qed.

Lemma even_add_rem2 (n : Z) : 0 <= n -> Z.even (n + Z.rem n 2) = true.
Proof.
  intros Hn. rewrite Z.rem_mod_nonneg by lia.
  rewrite Z.even_add, Zmod_odd, <- Z.negb_odd.
  destruct (Z.odd n); reflexivity.
Qed.

Lemma scanned_offset (buf : buffer) (st : scan_state) :
  scanned buf st -> 12 <= offset st /\ Z.even (offset st) = true.
Proof.
  induction 1 as [|st st' _ [IH12 IHev] H8 Hstep].
  - split; [simpl; lia|reflexivity].
  - apply scan_body_continue in Hstep as [-> Hfit]; [|lia|lia].
    pose proof (size_at_range buf (offset st) ltac:(lia) H8) as Hsz.
    pose proof (rem2_range (size_at buf (offset st)) ltac:(lia)).
    unfold next_state. cbn [offset]. split; [lia|].
    rewrite <- !Z.add_assoc, Z.even_add, IHev.
    rewrite Z.even_add. change (Z.even 8) with true.
    rewrite even_add_rem2 by lia. reflexivity.
Qed.

Lemma scanned_data (buf : buffer) (st : scan_state) (d : data_chunk) :
  scanned buf st -> data st = Some d ->
  20 <= data_dataOffset d /\ 0 <= data_dataSize d < 2 ^ 32 /\
  data_dataOffset d + data_dataSize d <= blen buf.
Proof.
  intros Hsc. revert d.
  induction Hsc as [|st st' Hsc IH H8 Hstep]; intros d Hd.
  - discriminate.
  - pose proof (scanned_offset buf st Hsc) as [H12 _].
    apply scan_body_continue in Hstep as [-> Hfit]; [|lia|lia].
    pose proof (size_at_range buf (offset st) ltac:(lia) H8) as Hsz.
    unfold next_state in Hd. cbn [data] in Hd.
    destruct (String.eqb (id_at buf (offset st)) "data").
    + injection Hd as <-. cbn [data_dataOffset data_dataSize]. lia.
    + auto.
Qed.

(** The loop ends within its bound, asks only for bytes of the buffer,
    and throws nothing but the short-format-chunk error. *)
Lemma scan_spec (fuel : nat) :
  forall (buf : buffer) (st : scan_state),
    scanned buf st ->
    blen buf - offset st < 8 * Z.of_nat fuel ->
    Forall (in_bounds buf) (accesses (scan fuel buf st)) /\
    match outcome (scan fuel buf st) with
    | Ok st' => scanned buf st' /\ offset st <= offset st'
    | Throw e => e = Error "Invalid WAV fmt chunk."
    | OutOfFuel => False
    end.
Proof.
  induction fuel as [|fuel IH]; intros buf st Hsc Hfuel;
    pose proof (scanned_offset buf st Hsc) as [H12 _]; cbn [scan].
  - destruct (Z.leb_spec (offset st + 8) (blen buf)); [lia|].
    cbn. split; [constructor|split; [assumption|lia]].
  - destruct (Z.leb_spec (offset st + 8) (blen buf)) as [H8|Hend].
    2: { cbn. split; [constructor|split; [assumption|lia]]. }
    destruct (scan_body_spec buf st ltac:(lia) H8) as [Hacc Hout].
    rewrite accesses_bind, outcome_bind.
    pose proof (size_at_range buf (offset st) ltac:(lia) H8) as Hsz.
    destruct (outcome (scan_body buf st)) as [[st'|]|e|] eqn:Ebody.
    + assert (scanned buf st') as Hsc' by (eapply scanned_step; eauto).
      apply scan_body_continue in Ebody as [Est' Hfit]; [|lia|lia].
      pose proof (rem2_range (size_at buf (offset st)) ltac:(lia)).
      assert (offset st + 8 <= offset st') as Hadv
        by (subst st'; unfold next_state; cbn [offset]; lia).
      destruct (IH buf st' Hsc' ltac:(lia)) as [Hacc' Hout'].
      split; [in_bounds_tac|].
      destruct (outcome (scan fuel buf st')); auto.
      destruct Hout'. split; [assumption|lia].
    + cbn. rewrite app_nil_r. split; [assumption|split; [assumption|lia]].
    + rewrite app_nil_r. split; [assumption|].
      destruct (Z.ltb_spec (blen buf) (offset st + 8 + size_at buf (offset st)));
        [discriminate|].
      destruct (String.eqb (id_at buf (offset st)) "fmt " &&
                (size_at buf (offset st) <? 16)); congruence.
    + destruct (Z.ltb_spec (blen buf) (offset st + 8 + size_at buf (offset st)));
        [discriminate|].
      destruct (String.eqb (id_at buf (offset st)) "fmt " &&
                (size_at buf (offset st) <? 16)); discriminate.
Qed.

(** ** [parseWav] on any buffer *)

Lemma parseWav_short (buf : buffer) :
  blen buf < 12 ->
  parseWav buf = throw (Error "Invalid WAV buffer.").
Proof.
  intros H. unfold parseWav. destruct (Z.ltb_spec (blen buf) 12); [|lia].
  reflexivity.
Qed.

Lemma parseWav_bad_magic (buf : buffer) :
  12 <= blen buf ->
  id_at buf 0 <> "RIFF" \/ id_at buf 8 <> "WAVE" ->
  outcome (parseWav buf) = Throw (Error "Invalid WAV: expected RIFF/WAVE.") /\
  accesses (parseWav buf) = [(0, 4); (8, 12)].
Proof.
  intros Hlen Hbad. unfold parseWav.
  destruct (Z.ltb_spec (blen buf) 12); [lia|].
  rewrite !outcome_bind, !accesses_bind. cbn [toString_ascii outcome accesses].
  rewrite !outcome_bind, !accesses_bind. cbn [toString_ascii outcome accesses].
  change (ascii_decode (subarray buf 0 4)) with (id_at buf 0).
  change (ascii_decode (subarray buf 8 12)) with (id_at buf 8).
  assert (negb (String.eqb (id_at buf 0) "RIFF") ||
          negb (String.eqb (id_at buf 8) "WAVE") = true) as ->.
  { destruct Hbad as [Hb|Hb]; apply String.eqb_neq in Hb; rewrite Hb;
      [reflexivity|apply orb_true_r]. }
  split; reflexivity.
Qed.

Lemma parseWav_spec (buf : buffer) :
  Forall (in_bounds buf) (accesses (parseWav buf)) /\
  match outcome (parseWav buf) with
  | Ok h =>
      20 <= dataOffset h /\ 0 <= dataSize h < 2 ^ 32 /\
      dataOffset h + dataSize h <= blen buf /\ pcmBytes h = dataSize h
  | Throw e =>
      e = Error "Invalid WAV buffer." \/
      e = Error "Invalid WAV: expected RIFF/WAVE." \/
      e = Error "Invalid WAV fmt chunk." \/
      e = Error "WAV missing fmt chunk." \/
      e = Error "WAV missing data chunk."
  | OutOfFuel => False
  end.
Proof.
  destruct (Z.lt_ge_cases (blen buf) 12) as [Hshort|Hlen].
  { rewrite parseWav_short by assumption. cbn. split; [constructor|auto]. }
  unfold parseWav. destruct (Z.ltb_spec (blen buf) 12); [lia|].
  rewrite !outcome_bind, !accesses_bind. cbn [toString_ascii outcome accesses].
  rewrite !outcome_bind, !accesses_bind. cbn [toString_ascii outcome accesses].
  destruct (negb _ || negb _).
  { cbn. split; [in_bounds_tac|auto]. }
  rewrite !outcome_bind, !accesses_bind.
  destruct (scan_spec (length buf) buf scan_init (scanned_init buf))
    as [Hacc Hout].
  { unfold blen in *. cbn [scan_init offset]. lia. }
  destruct (outcome (scan (length buf) buf scan_init)) as [st|e|].
  - destruct Hout as [Hsc _].
    destruct (fmt st) as [f|]; [|cbn; split; [in_bounds_tac|auto 6]].
    destruct (data st) as [d|] eqn:Ed; [|cbn; split; [in_bounds_tac|auto 6]].
    destruct (scanned_data buf st d Hsc Ed) as (Hd0 & Hd1 & Hd2).
    cbn. split; [in_bounds_tac|]. auto.
  - split; [in_bounds_tac|auto].
  - contradiction.
Qed.

(** ** The loop variables after a sequence of chunks *)

Lemma absorb_all_app (st : scan_state) (a b : list chunk) :
  absorb_all st (a ++ b) = absorb_all (absorb_all st a) b.
Proof. apply fold_left_app. Qed.

Lemma encode_chunks_app (a b : list chunk) :
  encode_chunks (a ++ b) = encode_chunks a ++ encode_chunks b.
Proof. unfold encode_chunks. rewrite map_app. apply concat_app. Qed.

Lemma encode_chunks_cons (c : chunk) (cs : list chunk) :
  encode_chunks (c :: cs) = encode_chunk c ++ encode_chunks cs.
Proof. reflexivity. Qed.

Lemma offset_absorb_all (cs : list chunk) :
  forall st : scan_state,
    Forall wf_chunk cs ->
    offset (absorb_all st cs) = offset st + blen (encode_chunks cs).
Proof.
  induction cs as [|c cs IH]; intros st Hwf.
  - unfold absorb_all, encode_chunks, blen. simpl. lia.
  - apply Forall_cons in Hwf as [Hc Hcs].
    cbn [absorb_all fold_left]. fold (absorb_all (absorb st c) cs).
    rewrite IH, encode_chunks_cons, blen_app, blen_encode_chunk by assumption.
    cbn [absorb offset]. lia.
Qed.

Lemma fmt_absorb_all_none (cs : list chunk) :
  forall st : scan_state,
    Forall (fun c => is_fmt c = false) cs ->
    fmt (absorb_all st cs) = fmt st.
Proof.
  induction cs as [|c cs IH]; intros st Hno; [reflexivity|].
  apply Forall_cons in Hno as [Hc Hcs].
  cbn [absorb_all fold_left]. fold (absorb_all (absorb st c) cs).
  rewrite IH by assumption. cbn [absorb fmt]. rewrite Hc. reflexivity.
Qed.

Lemma data_absorb_all_none (cs : list chunk) :
  forall st : scan_state,
    Forall (fun c => is_data c = false) cs ->
    data (absorb_all st cs) = data st.
Proof.
  induction cs as [|c cs IH]; intros st Hno; [reflexivity|].
  apply Forall_cons in Hno as [Hc Hcs].
  cbn [absorb_all fold_left]. fold (absorb_all (absorb st c) cs).
  rewrite IH by assumption. cbn [absorb data]. rewrite Hc. reflexivity.
Qed.

(** The format fields come from the last format chunk. *)
Lemma fmt_absorb_all_last (st : scan_state) (before after : list chunk)
    (F : chunk) :
  is_fmt F = true -> Forall (fun c => is_fmt c = false) after ->
  fmt (absorb_all st (before ++ F :: after)) =
  Some (fmt_of_payload (payload F)).
Proof.
  intros HF Hafter. rewrite absorb_all_app.
  cbn [absorb_all fold_left].
  fold (absorb_all (absorb (absorb_all st before) F) after).
  rewrite fmt_absorb_all_none by assumption.
  cbn [absorb fmt]. rewrite HF. reflexivity.
Qed.

(** The data window comes from the last data chunk. *)
Lemma data_absorb_all_last (st : scan_state) (before after : list chunk)
    (D : chunk) :
  Forall wf_chunk before ->
  is_data D = true -> Forall (fun c => is_data c = false) after ->
  data (absorb_all st (before ++ D :: after)) =
  Some (Data (offset st + blen (encode_chunks before) + 8) (blen (payload D))).
Proof.
  intros Hwf HD Hafter. rewrite absorb_all_app.
  cbn [absorb_all fold_left].
  fold (absorb_all (absorb (absorb_all st before) D) after).
  rewrite data_absorb_all_none by assumption.
  cbn [absorb data]. rewrite HD, offset_absorb_all by assumption.
  reflexivity.
Qed.

Lemma other_chunks_wf (cs : list chunk) :
  Forall other_chunk cs -> Forall wf_chunk cs.
Proof.
  intros H. eapply Forall_impl; [exact H|]. intros c [Hc _]. exact Hc.
Qed.

Lemma other_chunks_no_fmt (cs : list chunk) :
  Forall other_chunk cs -> Forall (fun c => is_fmt c = false) cs.
Proof.
  intros H. eapply Forall_impl; [exact H|]. intros c (_ & Hc & _). exact Hc.
Qed.

Lemma other_chunks_no_data (cs : list chunk) :
  Forall other_chunk cs -> Forall (fun c => is_data c = false) cs.
Proof.
  intros H. eapply Forall_impl; [exact H|]. intros c (_ & _ & Hc). exact Hc.
Qed.

Lemma wf_fmt_chunk (f : list byte) :
  16 <= blen f < 2 ^ 32 -> wf_chunk (Chunk fmt_tag f).
Proof. intros H. repeat split; cbn [payload]; try lia. Qed.

Lemma wf_data_chunk (samples : list byte) :
  blen samples < 2 ^ 32 -> wf_chunk (Chunk data_tag samples).
Proof. intros H. repeat split; cbn [payload]; try lia. discriminate. Qed.

(** The payload of a chunk sits in the built container right after the
    chunks before it and its own 8-byte header. *)
Lemma subarray_build_payload (before after : list chunk) (c : chunk) :
  Forall wf_chunk before -> wf_chunk c ->
  let po := 12 + blen (encode_chunks before) + 8 in
  subarray (build (before ++ c :: after)) po (po + blen (payload c)) =
  payload c.
Proof.
  intros Hwf Hc po. subst po. unfold build, build_with.
  rewrite app_nil_r, encode_chunks_app, encode_chunks_cons.
  set (hdr := riff_header _). unfold encode_chunk.
  rewrite <- !app_assoc.
  rewrite (app_assoc (tag c)), (app_assoc (encode_chunks before)),
    (app_assoc hdr).
  apply subarray_exact;
    subst hdr; rewrite !blen_app, blen_riff_header, blen_tag, blen_u32le
      by assumption; lia.
Qed.

Lemma fmt_absorb_all_found (cs : list chunk) :
  forall st : scan_state,
    is_Some (fmt st) \/ Exists (fun c => is_fmt c = true) cs ->
    is_Some (fmt (absorb_all st cs)).
Proof.
  induction cs as [|c cs IH]; intros st H.
  - destruct H as [H|H]; [exact H|inversion H].
  - cbn [absorb_all fold_left]. fold (absorb_all (absorb st c) cs).
    apply IH. cbn [absorb fmt].
    destruct (is_fmt c) eqn:Ec; [left; eauto|].
    destruct H as [H|H]; [left; exact H|].
    apply Exists_cons in H as [H|H]; [congruence|right; exact H].
Qed.

(** The header returned for a container whose last format chunk is [F]
    and whose last data chunk is [D]. *)
Lemma parseWav_last_chunks (cs before1 after1 before2 after2 : list chunk)
    (F D : chunk) :
  cs = before1 ++ F :: after1 -> cs = before2 ++ D :: after2 ->
  Forall wf_chunk cs ->
  is_fmt F = true -> Forall (fun c => is_fmt c = false) after1 ->
  is_data D = true -> Forall (fun c => is_data c = false) after2 ->
  outcome (parseWav (build cs)) =
  Ok (Header (fmt_audioFormat (fmt_of_payload (payload F)))
             (fmt_numChannels (fmt_of_payload (payload F)))
             (fmt_sampleRate (fmt_of_payload (payload F)))
             (fmt_bitsPerSample (fmt_of_payload (payload F)))
             (12 + blen (encode_chunks before2) + 8)
             (blen (payload D)) (blen (payload D))).
Proof.
  intros E1 E2 Hwf HF Ha1 HD Ha2.
  rewrite parseWav_build by assumption. unfold finish.
  rewrite E1 at 1. rewrite fmt_absorb_all_last by assumption.
  rewrite E2. rewrite data_absorb_all_last; auto.
  rewrite E2 in Hwf. apply Forall_app in Hwf as [H _]. exact H.
Qed.

(** ** Properties of the container parser *)

Ltac chunk_tac :=
  repeat match goal with
         | |- Forall _ [] => constructor
         | |- Forall _ (_ :: _) => constructor
         | |- Forall _ (_ ++ _) => apply Forall_app; split
         | |- other_chunk _ => split; [|split; reflexivity]
         | |- wf_chunk _ =>
             split; [reflexivity|split; [reflexivity|vm_compute; intros; congruence]]
         | |- _ => assumption
         end.

Ltac forall_tac :=
  repeat match goal with
         | |- Forall _ (_ :: _) => apply Forall_cons; split
         | |- Forall _ [] => constructor
         end;
  try assumption.

Ltac wf_all_tac :=
  repeat match goal with
         | |- Forall wf_chunk (_ ++ _) => apply Forall_app; split
         | |- Forall wf_chunk (_ :: _) => apply Forall_cons; split
         end;
  auto using other_chunks_wf.

Ltac no_tag_tac :=
  repeat match goal with
         | |- Forall _ (_ ++ _) => apply Forall_app; split
         | |- Forall _ (_ :: _) => constructor; [reflexivity|]
         end;
  auto using other_chunks_no_fmt, other_chunks_no_data.

Ltac order_tac :=
  first [ solve [wf_all_tac]
        | solve [rewrite <- app_assoc; reflexivity]
        | solve [no_tag_tac] ].

(** C3: a container with one format chunk and one data chunk, and any
    other chunks before, between and after them, parses to the same
    sampleRate, numChannels and bitsPerSample whether the format chunk
    comes first or the data chunk does, and dataSize is the length of the
    payload that was put in. *)
Theorem C3_chunk_order_irrelevant
    (pre mid post pre' mid' post' : list chunk) (f samples : list byte) :
  Forall other_chunk pre -> Forall other_chunk mid ->
  Forall other_chunk post ->
  Forall other_chunk pre' -> Forall other_chunk mid' ->
  Forall other_chunk post' ->
  16 <= blen f < 2 ^ 32 -> blen samples < 2 ^ 32 ->
  exists h h' : wav_header,
    outcome (parseWav (build (pre ++ Chunk fmt_tag f :: mid ++
                              Chunk data_tag samples :: post))) = Ok h /\
    outcome (parseWav (build (pre' ++ Chunk data_tag samples :: mid' ++
                              Chunk fmt_tag f :: post'))) = Ok h' /\
    sampleRate h = sampleRate h' /\
    numChannels h = numChannels h' /\
    bitsPerSample h = bitsPerSample h' /\
    sampleRate h = fmt_sampleRate (fmt_of_payload f) /\
    numChannels h = fmt_numChannels (fmt_of_payload f) /\
    bitsPerSample h = fmt_bitsPerSample (fmt_of_payload f) /\
    dataSize h = blen samples /\ dataSize h' = blen samples.
Proof.
  intros Hpre Hmid Hpost Hpre' Hmid' Hpost' Hf Hs.
  pose proof (wf_fmt_chunk f Hf) as HF.
  pose proof (wf_data_chunk samples Hs) as HD.
  eexists. eexists. split; [|split].
  - eapply (parseWav_last_chunks _ pre _ (pre ++ Chunk fmt_tag f :: mid) post);
      try reflexivity; order_tac.
  - eapply (parseWav_last_chunks _ (pre' ++ Chunk data_tag samples :: mid')
              post' pre');
      try reflexivity; order_tac.
  - cbn [sampleRate numChannels bitsPerSample dataSize payload].
    repeat split; reflexivity.
Qed.

Lemma C3_chunk_order_irrelevant_witness :
  exists h h' : wav_header,
    outcome (parseWav (build ([fixture_odd] ++ Chunk fmt_tag
                                (fmt_payload 1 1 16000 32000 2 16 []) :: [] ++
                              Chunk data_tag fixture_samples :: [fixture_odd])))
      = Ok h /\
    outcome (parseWav (build ([] ++ Chunk data_tag fixture_samples ::
                              [fixture_odd; fixture_odd] ++
                              Chunk fmt_tag
                                (fmt_payload 1 1 16000 32000 2 16 []) :: [])))
      = Ok h' /\
    sampleRate h = sampleRate h' /\
    numChannels h = numChannels h' /\
    bitsPerSample h = bitsPerSample h' /\
    sampleRate h = fmt_sampleRate
                     (fmt_of_payload (fmt_payload 1 1 16000 32000 2 16 [])) /\
    numChannels h = fmt_numChannels
                      (fmt_of_payload (fmt_payload 1 1 16000 32000 2 16 [])) /\
    bitsPerSample h = fmt_bitsPerSample
                        (fmt_of_payload (fmt_payload 1 1 16000 32000 2 16 [])) /\
    dataSize h = blen fixture_samples /\ dataSize h' = blen fixture_samples.
Proof.
  apply (C3_chunk_order_irrelevant [fixture_odd] [] [fixture_odd]
           [] [fixture_odd; fixture_odd] []);
    try solve [chunk_tac]; vm_compute; intuition congruence.
Defined.

(** C4: round trip.  For a built container that embeds the sample payload
    [samples] in its (last) data chunk and has a format chunk somewhere,
    the header is returned and slicing the buffer over
    [dataOffset, dataOffset + dataSize) gives back [samples] byte for
    byte. *)
Theorem C4_round_trip (before after : list chunk) (samples : list byte) :
  Forall wf_chunk before -> Forall wf_chunk after ->
  Exists (fun c => is_fmt c = true) (before ++ after) ->
  Forall (fun c => is_data c = false) after ->
  blen samples < 2 ^ 32 ->
  let buf := build (before ++ Chunk data_tag samples :: after) in
  exists h : wav_header,
    outcome (parseWav buf) = Ok h /\
    dataSize h = blen samples /\
    subarray buf (dataOffset h) (dataOffset h + dataSize h) = samples.
Proof.
  intros Hb Ha Hfmt Hnd Hs buf.
  pose proof (wf_data_chunk samples Hs) as HD.
  assert (Forall wf_chunk (before ++ Chunk data_tag samples :: after)) as Hwf
    by wf_all_tac.
  destruct (fmt_absorb_all_found (before ++ Chunk data_tag samples :: after)
              scan_init) as [f Ef].
  { right. apply Exists_app in Hfmt.
    apply Exists_app. destruct Hfmt as [H|H]; [left; exact H|].
    right. apply Exists_cons. right. exact H. }
  subst buf. rewrite parseWav_build by assumption.
  unfold finish. rewrite Ef.
  rewrite data_absorb_all_last by (assumption || reflexivity).
  eexists. split; [reflexivity|]. split; [reflexivity|].
  cbn [dataOffset dataSize data_dataOffset data_dataSize scan_init offset].
  apply (subarray_build_payload before after (Chunk data_tag samples));
    assumption.
Qed.

Lemma C4_round_trip_witness :
  exists h : wav_header,
    outcome (parseWav fixture) = Ok h /\
    dataSize h = blen fixture_samples /\
    subarray fixture (dataOffset h) (dataOffset h + dataSize h) =
    fixture_samples.
Proof.
  apply (C4_round_trip [fixture_fmt; fixture_odd] [] fixture_samples).
  - chunk_tac.
  - chunk_tac.
  - apply Exists_cons. left. reflexivity.
  - constructor.
  - reflexivity.
Defined.

(** C6: after a chunk of any type the scan moves to the byte after the
    payload, and one byte further when the declared payload length is
    odd; hence every chunk header is read at an even offset.  A container
    of three chunks whose middle chunk has an odd length has its third
    chunk found after the pad byte; so does the fixture, whose middle
    chunk has 3 payload bytes. *)
Theorem C6_chunk_alignment :
  (forall (buf : buffer) (st st' : scan_state),
      scanned buf st -> offset st + 8 <= blen buf ->
      outcome (scan_body buf st) = Ok (Continue st') ->
      offset st' =
      offset st + 8 + size_at buf (offset st) +
      (if Z.odd (size_at buf (offset st)) then 1 else 0)) /\
  (forall (buf : buffer) (st : scan_state),
      scanned buf st -> Z.even (offset st) = true) /\
  (forall (F c : chunk) (samples : list byte),
      wf_chunk F -> is_fmt F = true -> other_chunk c ->
      Z.odd (blen (payload c)) = true -> blen samples < 2 ^ 32 ->
      let buf := build [F; c; Chunk data_tag samples] in
      exists h : wav_header,
        outcome (parseWav buf) = Ok h /\
        dataOffset h =
          12 + blen (encode_chunk F) + (8 + blen (payload c) + 1) + 8 /\
        dataSize h = blen samples /\
        subarray buf (dataOffset h) (dataOffset h + dataSize h) = samples) /\
  Z.odd (blen (payload fixture_odd)) = true /\
  outcome (parseWav fixture) = Ok (Header 1 1 16000 16 56 6 6) /\
  subarray fixture 56 (56 + 6) = fixture_samples.
Proof.
  split; [|split; [|split; [|repeat split; vm_compute; reflexivity]]].
  - intros buf st st' Hsc H8 Hstep.
    pose proof (scanned_offset buf st Hsc) as [H12 _].
    apply scan_body_continue in Hstep as [-> _]; [|lia|lia].
    pose proof (size_at_range buf (offset st) ltac:(lia) H8) as Hsz.
    unfold next_state. cbn [offset].
    rewrite Z.rem_mod_nonneg, Zmod_odd by lia. reflexivity.
  - intros buf st Hsc. apply (scanned_offset buf st Hsc).
  - intros F c samples HF HisF Hc Hodd Hs buf.
    pose proof (wf_data_chunk samples Hs) as HD.
    pose proof Hc as (Hwc & Hcf & Hcd).
    assert (Forall wf_chunk [F; c; Chunk data_tag samples]) as Hwf
      by forall_tac.
    eexists. split; [|split; [|split]].
    + apply (parseWav_last_chunks _ [] [c; Chunk data_tag samples]
               [F; c] [] F (Chunk data_tag samples));
        try reflexivity; try assumption.
      * forall_tac. reflexivity.
      * constructor.
    + cbn [dataOffset]. rewrite !encode_chunks_cons, !blen_app.
      rewrite (blen_encode_chunk c Hwc).
      pose proof (blen_nonneg (payload c)).
      rewrite Z.rem_mod_nonneg, Zmod_odd, Hodd by lia.
      change (blen (encode_chunks [])) with 0. lia.
    + reflexivity.
    + cbn [dataOffset dataSize payload].
      apply (subarray_build_payload [F; c] [] (Chunk data_tag samples));
        [forall_tac|assumption].
Qed.

Lemma C6_chunk_alignment_witness :
  offset (Scan 48 (Some (Fmt 1 1 16000 16)) None) =
  offset (Scan 36 (Some (Fmt 1 1 16000 16)) None) + 8 +
  size_at fixture 36 + (if Z.odd (size_at fixture 36) then 1 else 0).
Proof.
  apply (proj1 C6_chunk_alignment fixture
           (Scan 36 (Some (Fmt 1 1 16000 16)) None)
           (Scan 48 (Some (Fmt 1 1 16000 16)) None)).
  - apply (scanned_step fixture scan_init).
    + constructor.
    + vm_compute. discriminate.
    + vm_compute. reflexivity.
  - vm_compute. discriminate.
  - vm_compute. reflexivity.
Defined.

Lemma stops_scan_truncated (t rest : list byte) (size : Z) :
  length t = 4%nat -> 0 <= size < 2 ^ 32 -> blen rest < size ->
  stops_scan (t ++ u32le size ++ rest).
Proof.
  intros Ht Hsize Hrest. right.
  assert (blen t = 4) as Ht4 by (unfold blen; rewrite Ht; reflexivity).
  rewrite (subarray_exact t (u32le size) rest)
    by (rewrite ?blen_u32le; lia).
  rewrite le_value_u32le, !blen_app, blen_u32le by lia. lia.
Qed.

(** C7: when the payload a chunk header declares does not fit in what is
    left of the buffer, the loop ends there without throwing and with the
    loop variables as they were; so a container followed by a truncated
    chunk parses exactly as the container alone.  And every header
    [parseWav] returns has its data window inside the buffer. *)
Theorem C7_truncated_chunk_and_window :
  (forall (fuel : nat) (buf : buffer) (st : scan_state),
      scanned buf st -> offset st + 8 <= blen buf ->
      blen buf < offset st + 8 + size_at buf (offset st) ->
      outcome (scan (S fuel) buf st) = Ok st) /\
  (forall (cs : list chunk) (t rest : list byte) (size : Z),
      Forall wf_chunk cs ->
      length t = 4%nat -> 0 <= size < 2 ^ 32 -> blen rest < size ->
      outcome (parseWav (build_with cs (t ++ u32le size ++ rest))) =
      outcome (parseWav (build cs))) /\
  (forall (buf : buffer) (h : wav_header),
      outcome (parseWav buf) = Ok h ->
      0 <= dataOffset h /\ 0 <= dataSize h /\
      dataOffset h + dataSize h <= blen buf).
Proof.
  split; [|split].
  - intros fuel buf st Hsc H8 Hbig.
    pose proof (scanned_offset buf st Hsc) as [H12 _].
    cbn [scan]. destruct (Z.leb_spec (offset st + 8) (blen buf)); [|lia].
    destruct (scan_body_spec buf st ltac:(lia) H8) as [_ Hout].
    rewrite outcome_bind, Hout.
    destruct (Z.ltb_spec (blen buf) (offset st + 8 + size_at buf (offset st)));
      [reflexivity|lia].
  - intros cs t rest size Hwf Ht Hsize Hrest.
    rewrite parseWav_build_with, parseWav_build;
      auto using stops_scan_truncated.
  - intros buf h Hout. pose proof (parseWav_spec buf) as [_ Hspec].
    rewrite Hout in Hspec. lia.
Qed.

Lemma C7_truncated_chunk_and_window_witness :
  outcome (parseWav (build_with [fixture_fmt; fixture_data]
                       (list_byte_of_string "LIST" ++ u32le 100 ++ [x00; x01])))
  = outcome (parseWav (build [fixture_fmt; fixture_data])) /\
  (0 <= dataOffset (Header 1 1 16000 16 56 6 6) /\
   0 <= dataSize (Header 1 1 16000 16 56 6 6) /\
   dataOffset (Header 1 1 16000 16 56 6 6) +
   dataSize (Header 1 1 16000 16 56 6 6) <= blen fixture).
Proof.
  split.
  - apply (proj1 (proj2 C7_truncated_chunk_and_window)).
    + chunk_tac.
    + reflexivity.
    + lia.
    + vm_compute. reflexivity.
  - apply (proj2 (proj2 C7_truncated_chunk_and_window) fixture).
    vm_compute. reflexivity.
Defined.

(** C9: with several format chunks or several data chunks in a container
    the header carries the fields of the last format chunk and the window
    of the last data chunk: whatever chunks come before them (earlier
    format and data chunks included) are overwritten, and the chunks that
    follow the point where both kinds have been seen are still scanned. *)
Theorem C9_last_chunk_wins
    (before1 after1 before2 after2 : list chunk) (F D : chunk) :
  before1 ++ F :: after1 = before2 ++ D :: after2 ->
  Forall wf_chunk (before1 ++ F :: after1) ->
  is_fmt F = true -> Forall (fun c => is_fmt c = false) after1 ->
  is_data D = true -> Forall (fun c => is_data c = false) after2 ->
  exists h : wav_header,
    outcome (parseWav (build (before1 ++ F :: after1))) = Ok h /\
    audioFormat h = fmt_audioFormat (fmt_of_payload (payload F)) /\
    numChannels h = fmt_numChannels (fmt_of_payload (payload F)) /\
    sampleRate h = fmt_sampleRate (fmt_of_payload (payload F)) /\
    bitsPerSample h = fmt_bitsPerSample (fmt_of_payload (payload F)) /\
    dataOffset h = 12 + blen (encode_chunks before2) + 8 /\
    dataSize h = blen (payload D) /\
    subarray (build (before1 ++ F :: after1))
      (dataOffset h) (dataOffset h + dataSize h) = payload D.
Proof.
  intros E Hwf HF Ha1 HD Ha2.
  eexists. split.
  - eapply (parseWav_last_chunks _ before1 after1 before2 after2 F D);
      eauto.
  - cbn [audioFormat numChannels sampleRate bitsPerSample dataOffset dataSize].
    repeat split. rewrite E.
    rewrite E in Hwf. apply Forall_app in Hwf as [Hb HDa].
    apply Forall_cons in HDa as [HwD _].
    apply (subarray_build_payload before2 after2 D); assumption.
Qed.

Lemma C9_last_chunk_wins_witness :
  exists h : wav_header,
    outcome (parseWav (build ([fixture_fmt; fixture_data] ++
                              Chunk fmt_tag (fmt_payload 1 2 8000 32000 4 8 [])
                              :: [Chunk data_tag [x09]]))) = Ok h /\
    audioFormat h = 1 /\ numChannels h = 2 /\ sampleRate h = 8000 /\
    bitsPerSample h = 8 /\
    dataOffset h =
      12 + blen (encode_chunks
                   [fixture_fmt; fixture_data;
                    Chunk fmt_tag (fmt_payload 1 2 8000 32000 4 8 [])]) + 8 /\
    dataSize h = 1 /\
    subarray (build ([fixture_fmt; fixture_data] ++
                     Chunk fmt_tag (fmt_payload 1 2 8000 32000 4 8 [])
                     :: [Chunk data_tag [x09]]))
      (dataOffset h) (dataOffset h + dataSize h) = [x09].
Proof.
  apply (C9_last_chunk_wins
           [fixture_fmt; fixture_data] [Chunk data_tag [x09]]
           [fixture_fmt; fixture_data;
            Chunk fmt_tag (fmt_payload 1 2 8000 32000 4 8 [])] []
           (Chunk fmt_tag (fmt_payload 1 2 8000 32000 4 8 []))
           (Chunk data_tag [x09])).
  - reflexivity.
  - chunk_tac.
  - reflexivity.
  - repeat constructor.
  - reflexivity.
  - constructor.
Defined.

Example request_not_wav_response :
  @assess_handler test_runtime configured_env request_not_wav =
  Ok (Response 500 (ErrorBody "Invalid WAV buffer.")).
Proof. vm_compute. reflexivity. Qed.

Example request_of_fixture_response :
  @assess_handler test_runtime configured_env (request_of_wav fixture) =
  Ok (Response 200 (AssessBody fixture_samples)).
Proof. vm_compute. reflexivity. Qed.

Example request_utf16le_response :
  @assess_handler test_runtime configured_env
    (utf16le_encode (js (request_text (base64_encode fixture)))) =
  Ok (Response 200 (AssessBody fixture_samples)).
Proof. vm_compute. reflexivity. Qed.

(** ** The request pipeline *)

Lemma result_bind_ok {A B : Type} (m : result A) (f : A -> result B) (a : A) :
  m = Ok a -> m ≫= f = f a.
Proof. intros ->. reflexivity. Qed.

Lemma result_bind_throw {A B : Type} (m : result A) (f : A -> result B)
    (e : exn) :
  m = Throw e -> m ≫= f = Throw e.
Proof. intros ->. reflexivity. Qed.

Lemma parseWav_throws_kind (wav : buffer) (e : exn) :
  outcome (parseWav wav) = Throw e ->
  error_kind_of e = Some InvalidContainer \/
  error_kind_of e = Some MissingFormatChunk \/
  error_kind_of e = Some MissingDataChunk.
Proof.
  intros H. pose proof (parseWav_spec wav) as [_ Hspec].
  rewrite H in Hspec.
  destruct Hspec as [-> | [-> | [-> | [-> | ->]]]]; cbv; auto.
Qed.

Section Pipeline.
Context {rt : Runtime}.

Lemma readJsonBody_throws (request : list byte) (e : exn) :
  readJsonBody request = Throw e ->
  e = Error "Invalid JSON body (could not decode as UTF-8 or UTF-16LE).".
Proof.
  unfold readJsonBody.
  destruct (JSON_parse (utf8_decode request)); [discriminate|].
  destruct (JSON_parse (utf16le_decode request)); [discriminate|].
  congruence.
Qed.

Lemma assess_try_reaches_parser (env : gmap string string)
    (request : list byte) (body : json) (wav : buffer) :
  reaches_parser env request body wav ->
  assess_try env request =
  assess_audio (assess_speechKey env) (assess_speechRegion env)
    (get_field (fields_of body) "locale")
    (get_field (fields_of body) "referenceText") wav.
Proof.
  intros (Hbody & Ha & Ht & Hl & Hk & Hr & Hwav).
  unfold assess_try. rewrite (result_bind_ok _ _ _ Hbody).
  cbv zeta. rewrite Ha, Ht, Hl, Hk, Hr. cbn [negb orb].
  rewrite (result_bind_ok _ _ _ Hwav). reflexivity.
Qed.

Lemma assess_audio_throws (speechKey speechRegion : option string)
    (locale referenceText : option json) (wav : buffer) (e : exn) :
  outcome (parseWav wav) = Throw e ->
  assess_audio speechKey speechRegion locale referenceText wav = Throw e.
Proof. intros H. unfold assess_audio. rewrite H. reflexivity. Qed.

(** C1 (as the code has it): a body that is JSON under neither encoding,
    and a container that [parseWav] rejects (bad magic tags or a short
    format chunk, a missing format chunk, a missing data chunk), each
    reach the handler's single [catch] and are answered with HTTP 500 and
    an [{ error }] body that carries the error's message. *)
Theorem C1_thrown_errors_are_500 (env : gmap string string)
    (request : list byte) :
  (forall e : exn,
      readJsonBody request = Throw e ->
      error_kind_of e = Some DecodeError /\
      assess_handler env request =
      Ok (error_response 500 (exn_message e))) /\
  (forall (body : json) (wav : buffer) (e : exn),
      reaches_parser env request body wav ->
      outcome (parseWav wav) = Throw e ->
      (error_kind_of e = Some InvalidContainer \/
       error_kind_of e = Some MissingFormatChunk \/
       error_kind_of e = Some MissingDataChunk) /\
      assess_handler env request =
      Ok (error_response 500 (exn_message e))).
Proof.
  split.
  - intros e He. pose proof (readJsonBody_throws request e He) as ->.
    split; [reflexivity|].
    unfold assess_handler, assess_try.
    rewrite (result_bind_throw _ _ _ He). reflexivity.
  - intros body wav e Hreach He.
    pose proof (parseWav_throws_kind wav e He) as Hkind.
    split; [exact Hkind|].
    unfold assess_handler.
    rewrite (assess_try_reaches_parser env request body wav Hreach).
    rewrite (assess_audio_throws _ _ _ _ wav e He).
    unfold error_text.
    pose proof (parseWav_spec wav) as [_ Hspec]. rewrite He in Hspec.
    destruct Hspec as [-> | [-> | [-> | [-> | ->]]]]; reflexivity.
Qed.

End Pipeline.

Lemma C1_thrown_errors_are_500_witness :
  (error_kind_of (Error "Invalid WAV buffer.") = Some InvalidContainer \/
   error_kind_of (Error "Invalid WAV buffer.") = Some MissingFormatChunk \/
   error_kind_of (Error "Invalid WAV buffer.") = Some MissingDataChunk) /\
  @assess_handler test_runtime configured_env request_not_wav =
  Ok (@error_response test_runtime 500
        (exn_message (Error "Invalid WAV buffer."))).
Proof.
  eapply (proj2 (@C1_thrown_errors_are_500 test_runtime configured_env
                   request_not_wav)).
  - repeat split; vm_compute; reflexivity.
  - vm_compute. reflexivity.
Defined.

(** At a request whose audio is not a container the error is an
    InvalidContainer one and the answer is 500, not 400. *)
Lemma C1_counterexample :
  ~ (forall (rt : Runtime) (env : gmap string string) (request : list byte)
            (e : exn) (r : response assessment),
        assess_try env request = Throw e ->
        is_Some (error_kind_of e) ->
        assess_handler env request = Ok r ->
        status r = 400).
Proof.
  intros H.
  assert (status (@error_response test_runtime 500 "Invalid WAV buffer.")
          = 400) as Habs.
  { apply (H test_runtime configured_env request_not_wav
             (Error "Invalid WAV buffer.")).
    - vm_compute. reflexivity.
    - eexists. vm_compute. reflexivity.
    - vm_compute. reflexivity. }
  discriminate Habs.
Qed.

(** ** UTF-16LE *)

Lemma to_N_byte_of_Z (n : Z) : Byte.to_N (byte_of_Z n) = Z.to_N (n mod 256).
Proof.
  pose proof (byte_val_of_Z n) as H. unfold byte_val in H.
  rewrite <- H. rewrite N2Z.id. reflexivity.
Qed.

Lemma utf16le_round_trip (text : jsstring) :
  Forall (fun c => (c < 65536)%N) text ->
  utf16le_decode (utf16le_encode text) = text.
Proof.
  induction 1 as [|c text Hc _ IH]; [reflexivity|].
  cbn [utf16le_encode utf16le_decode]. rewrite IH. f_equal.
  rewrite !to_N_byte_of_Z.
  assert (0 <= Z.of_N c / 256 < 256) as Hhi
    by (split; [apply Z.div_pos; lia|apply Z.div_lt_upper_bound; lia]).
  rewrite (Z.mod_small (Z.of_N c / 256)) by lia.
  pose proof (Z.div_mod (Z.of_N c) 256 ltac:(lia)) as Hdm.
  pose proof (Z.mod_pos_bound (Z.of_N c) 256 ltac:(lia)) as Hlo.
  lia.
Qed.

Section Decoder.
Context {rt : Runtime}.

(** C8: the body is parsed as JSON from its UTF-8 reading first; only
    when that fails is the UTF-16LE reading of the same bytes parsed; a
    text sent as UTF-16LE whose bytes are not JSON under UTF-8 is decoded
    by that second attempt; and when both fail the error thrown names
    both encodings. *)
Theorem C8_decode_order :
  (forall (request : list byte) (v : json),
      JSON_parse (utf8_decode request) = Some v ->
      readJsonBody request = Ok v) /\
  (forall (request : list byte),
      JSON_parse (utf8_decode request) = None ->
      readJsonBody request =
      match JSON_parse (utf16le_decode request) with
      | Some v => Ok v
      | None =>
          Throw (Error
            "Invalid JSON body (could not decode as UTF-8 or UTF-16LE).")
      end) /\
  (forall (text : jsstring) (v : json),
      Forall (fun c => (c < 65536)%N) text ->
      JSON_parse text = Some v ->
      JSON_parse (utf8_decode (utf16le_encode text)) = None ->
      readJsonBody (utf16le_encode text) = Ok v) /\
  (forall (request : list byte) (e : exn),
      readJsonBody request = Throw e ->
      JSON_parse (utf8_decode request) = None /\
      JSON_parse (utf16le_decode request) = None /\
      String.index 0 "UTF-8" (exn_message e) <> None /\
      String.index 0 "UTF-16LE" (exn_message e) <> None).
Proof.
  repeat split.
  - intros request v H. unfold readJsonBody. rewrite H. reflexivity.
  - intros request H. unfold readJsonBody. rewrite H. reflexivity.
  - intros text v Hunits Hv H8. unfold readJsonBody.
    rewrite H8, utf16le_round_trip, Hv by assumption. reflexivity.
  - unfold readJsonBody in H.
    destruct (JSON_parse (utf8_decode request)); [discriminate|reflexivity].
  - unfold readJsonBody in H.
    destruct (JSON_parse (utf8_decode request)); [discriminate|].
    destruct (JSON_parse (utf16le_decode request)); [discriminate|reflexivity].
  - apply readJsonBody_throws in H as ->. vm_compute. discriminate.
  - apply readJsonBody_throws in H as ->. vm_compute. discriminate.
Qed.

End Decoder.

Lemma C8_decode_order_witness :
  @readJsonBody test_runtime
    (utf16le_encode (js (request_text "AAAA"))) =
  Ok (JObject [(js "audioBase64", JString (js "AAAA"));
               (js "referenceText", JString (js "ni hao"));
               (js "locale", JString (js "zh-CN"))]).
Proof.
  apply (proj1 (proj2 (proj2 (@C8_decode_order test_runtime)))).
  - vm_compute. repeat constructor.
  - vm_compute. reflexivity.
  - vm_compute. reflexivity.
Defined.

(** ** base64 *)

Lemma sextets_filter (s : jsstring) :
  sextets (List.filter base64_significant s) = sextets s.
Proof.
  induction s as [|c s IH]; [reflexivity|].
  cbn [List.filter]. unfold base64_significant at 1.
  destruct (unbase64 (c mod 256)%N) as [v|] eqn:Ev.
  - cbn [sextets]. rewrite Ev, IH. reflexivity.
  - destruct (N.eqb (c mod 256)%N 61) eqn:Eeq.
    + cbn [sextets]. rewrite Ev, Eeq. reflexivity.
    + cbn [sextets]. rewrite Ev, Eeq. exact IH.
Qed.

Section Audio.
Context {rt : Runtime}.

(** C10: when [audioBase64] is a string, whatever its characters,
    [Buffer.from(audioBase64, "base64")] returns a buffer: characters
    that are not base64 characters are skipped.  The [try] block then
    continues with [parseWav] on that buffer, so an error it throws comes
    from the container parser (or, after a successful parse, from the
    recognition service), not from the base64 step. *)
Theorem C10_base64_never_throws (env : gmap string string)
    (request : list byte) (body : json) (s : jsstring) :
  readJsonBody request = Ok body ->
  get_field (fields_of body) "audioBase64" = Some (JString s) ->
  s <> [] ->
  truthy_opt (get_field (fields_of body) "referenceText") = true ->
  truthy_opt (get_field (fields_of body) "locale") = true ->
  env_truthy (assess_speechKey env) = true ->
  env_truthy (assess_speechRegion env) = true ->
  Buffer_from_base64 (Some (JString s)) = Ok (base64_decode s) /\
  base64_decode s = base64_decode (List.filter base64_significant s) /\
  assess_try env request =
    assess_audio (assess_speechKey env) (assess_speechRegion env)
      (get_field (fields_of body) "locale")
      (get_field (fields_of body) "referenceText") (base64_decode s) /\
  (forall e : exn,
      assess_try env request = Throw e ->
      (outcome (parseWav (base64_decode s)) = Throw e /\
       (error_kind_of e = Some InvalidContainer \/
        error_kind_of e = Some MissingFormatChunk \/
        error_kind_of e = Some MissingDataChunk)) \/
      (exists (h : wav_header) (input : assess_input),
          outcome (parseWav (base64_decode s)) = Ok h /\
          in_header input = h /\ recognizeOnce input = Throw e)).
Proof.
  intros Hbody Haudio Hs Htext Hloc Hkey Hregion.
  assert (reaches_parser env request body (base64_decode s)) as Hreach.
  { repeat split; try assumption; rewrite Haudio; [|reflexivity].
    cbn. destruct s; [congruence|reflexivity]. }
  pose proof (assess_try_reaches_parser env request body _ Hreach) as Htry.
  split; [reflexivity|]. split.
  { unfold base64_decode. rewrite sextets_filter. reflexivity. }
  split; [exact Htry|].
  intros e He. rewrite Htry in He. unfold assess_audio in He.
  destruct (outcome (parseWav (base64_decode s))) as [h|e'|] eqn:Ep;
    cbn [mbind result_bind] in He; [|left|discriminate].
  - right.
    destruct (negb (audioFormat h =? 1)); [discriminate|].
    destruct (negb (numChannels h =? 1)); [discriminate|].
    destruct (negb (bitsPerSample h =? 16)); [discriminate|].
    match type of He with
    | context [recognizeOnce ?i] =>
        exists h, i; destruct (recognizeOnce i) eqn:Er
    end; cbn in He; try discriminate.
    repeat split. congruence.
  - injection He as ->. split; [reflexivity|].
    exact (parseWav_throws_kind _ _ Ep).
Qed.

(** C2 (as the code has it): the assessment endpoint takes the key from
    SPEECH_KEY or else AZURE_SPEECH_KEY and the region from SPEECH_REGION
    or else AZURE_SPEECH_REGION, an unset or empty first name giving way
    to the second; it has no default, and a request with its three fields
    present is answered 500 when key or region is missing.  The token
    endpoint reads SPEECH_KEY and SPEECH_REGION only: without SPEECH_KEY
    it answers 500, and without SPEECH_REGION it uses the region
    canadacentral. *)
Theorem C2_configuration (env : gmap string string) :
  (forall k : string,
      env !! "SPEECH_KEY" = Some k -> k <> EmptyString ->
      assess_speechKey env = Some k) /\
  (env_truthy (env !! "SPEECH_KEY") = false ->
   assess_speechKey env = env !! "AZURE_SPEECH_KEY") /\
  (forall r : string,
      env !! "SPEECH_REGION" = Some r -> r <> EmptyString ->
      assess_speechRegion env = Some r) /\
  (env_truthy (env !! "SPEECH_REGION") = false ->
   assess_speechRegion env = env !! "AZURE_SPEECH_REGION") /\
  (forall (request : list byte) (body : json),
      readJsonBody request = Ok body ->
      truthy_opt (get_field (fields_of body) "audioBase64") = true ->
      truthy_opt (get_field (fields_of body) "referenceText") = true ->
      truthy_opt (get_field (fields_of body) "locale") = true ->
      env_truthy (assess_speechKey env) = false \/
      env_truthy (assess_speechRegion env) = false ->
      assess_handler env request =
      Ok (error_response 500
            "Missing SPEECH_KEY or SPEECH_REGION in environment.")) /\
  (env_truthy (env !! "SPEECH_KEY") = false ->
   token_handler env =
   Ok (error_response 500 "Missing SPEECH_KEY in local.settings.json")) /\
  (env_truthy (env !! "SPEECH_KEY") = true ->
   let region := if env_truthy (env !! "SPEECH_REGION")
                 then env !! "SPEECH_REGION" else Some "canadacentral" in
   token_handler env =
   match issueToken region (env !! "SPEECH_KEY") with
   | Ok token => Ok (Response 200 (TokenBody token region))
   | Throw e => Ok (error_response 500 (exn_message e))
   | OutOfFuel => OutOfFuel
   end).
Proof.
  assert (forall (a : option string) (k : string),
             a = Some k -> k <> EmptyString -> env_truthy a = true) as Hnonempty.
  { intros a k -> Hk. cbn. apply String.eqb_neq in Hk. rewrite Hk.
    reflexivity. }
  repeat split.
  - intros k Hk Hne. unfold assess_speechKey, env_or.
    rewrite (Hnonempty _ k Hk Hne). exact Hk.
  - intros H. unfold assess_speechKey, env_or. rewrite H. reflexivity.
  - intros r Hr Hne. unfold assess_speechRegion, env_or.
    rewrite (Hnonempty _ r Hr Hne). exact Hr.
  - intros H. unfold assess_speechRegion, env_or. rewrite H. reflexivity.
  - intros request body Hbody Ha Ht Hl Hmissing.
    unfold assess_handler, assess_try.
    rewrite (result_bind_ok _ _ _ Hbody). cbv zeta.
    rewrite Ha, Ht, Hl. cbn [negb].
    destruct Hmissing as [-> | ->]; cbn [negb orb];
      rewrite ?orb_true_r; reflexivity.
  - intros H. unfold token_handler. rewrite H. reflexivity.
  - intros H region. unfold token_handler. rewrite H. cbn [negb].
    unfold env_or. reflexivity.
Qed.

End Audio.

Lemma C10_base64_never_throws_witness :
  base64_decode (js "AA**AA") =
  base64_decode (List.filter base64_significant (js "AA**AA")) /\
  @assess_try test_runtime configured_env
    (utf8_bytes (request_text "AA**AA")) =
  @assess_audio test_runtime
    (assess_speechKey configured_env) (assess_speechRegion configured_env)
    (Some (JString (js "zh-CN"))) (Some (JString (js "ni hao")))
    (base64_decode (js "AA**AA")).
Proof.
  pose proof (@C10_base64_never_throws test_runtime configured_env
                (utf8_bytes (request_text "AA**AA"))
                (JObject [(js "audioBase64", JString (js "AA**AA"));
                          (js "referenceText", JString (js "ni hao"));
                          (js "locale", JString (js "zh-CN"))])
                (js "AA**AA")) as H.
  destruct H as (_ & Hskip & Htry & _);
    [vm_compute; reflexivity | vm_compute; reflexivity | discriminate
    | reflexivity | reflexivity | vm_compute; reflexivity
    | vm_compute; reflexivity | ].
  split; [exact Hskip|exact Htry].
Defined.

Lemma C2_configuration_witness :
  assess_speechKey azure_only_env = azure_only_env !! "AZURE_SPEECH_KEY" /\
  @token_handler test_runtime azure_only_env =
  Ok (@error_response test_runtime 500
        "Missing SPEECH_KEY in local.settings.json").
Proof.
  pose proof (@C2_configuration test_runtime azure_only_env)
    as (_ & Hkey & _ & _ & _ & Htoken & _).
  split; [apply Hkey|apply Htoken]; vm_compute; reflexivity.
Defined.

(** With the key under its second name only, the assessment endpoint
    finds it and the token endpoint reports it missing. *)
Lemma C2_counterexample :
  ~ (forall (rt : Runtime) (env : gmap string string),
        env_truthy (env !! "AZURE_SPEECH_KEY") = true ->
        token_handler env <>
        Ok (error_response 500 "Missing SPEECH_KEY in local.settings.json")).
Proof.
  intros H.
  apply (H test_runtime azure_only_env); vm_compute; reflexivity.
Qed.

(** C5, at a buffer whose first byte is 0xD2 instead of ['R']: the first
    four bytes are not "RIFF", yet the header check passes, because the
    "ascii" decoding clears the top bit of each byte, and the container is
    parsed as if it were well formed. *)
Theorem C5_high_bit_magic_accepted :
  blen high_bit_fixture = 62 /\
  subarray high_bit_fixture 0 4 <> list_byte_of_string "RIFF" /\
  id_at high_bit_fixture 0 = "RIFF" /\
  outcome (parseWav high_bit_fixture) = Ok (Header 1 1 16000 16 56 6 6).
Proof. repeat split; vm_compute; congruence. Qed.

(** What does hold of the header check and of the reads, on every
    buffer: a buffer shorter than 12 bytes, or one whose tags as the
    parser decodes them are not "RIFF" and "WAVE", is rejected, and every
    byte range the parser asks for lies inside the buffer. *)
Lemma parseWav_header_check_and_bounds (buf : buffer) :
  (blen buf < 12 \/ id_at buf 0 <> "RIFF" \/ id_at buf 8 <> "WAVE" ->
   exists e : exn,
     outcome (parseWav buf) = Throw e /\
     error_kind_of e = Some InvalidContainer) /\
  Forall (in_bounds buf) (accesses (parseWav buf)) /\
  outcome (parseWav buf) <> OutOfFuel /\
  (forall m : string, outcome (parseWav buf) <> Throw (RangeError m)).
Proof.
  pose proof (parseWav_spec buf) as [Hacc Hout].
  split; [|split; [exact Hacc|split]].
  - intros [Hshort|Hmagic].
    + rewrite parseWav_short by assumption. eexists. split; reflexivity.
    + destruct (Z.lt_ge_cases (blen buf) 12) as [Hshort|Hlen].
      * rewrite parseWav_short by assumption. eexists. split; reflexivity.
      * destruct (parseWav_bad_magic buf Hlen Hmagic) as [-> _].
        eexists. split; reflexivity.
  - intros E. rewrite E in Hout. exact Hout.
  - intros m E. rewrite E in Hout.
    destruct Hout as [H|[H|[H|[H|H]]]]; discriminate H.
Qed.

(** * Further properties of the parser *)

(** A returned header comes from a reachable state of the loop in which
    both chunks have been seen, behind a header check that passed. *)
Lemma parseWav_ok_inv (buf : buffer) (h : wav_header) :
  outcome (parseWav buf) = Ok h ->
  12 <= blen buf /\ id_at buf 0 = "RIFF" /\ id_at buf 8 = "WAVE" /\
  exists (st : scan_state) (f : fmt_chunk) (d : data_chunk),
    scanned buf st /\ fmt st = Some f /\ data st = Some d /\
    h = Header (fmt_audioFormat f) (fmt_numChannels f) (fmt_sampleRate f)
               (fmt_bitsPerSample f) (data_dataOffset d) (data_dataSize d)
               (data_dataSize d).
Proof.
  intros Hok.
  destruct (Z.lt_ge_cases (blen buf) 12) as [Hshort|Hlen].
  { rewrite parseWav_short in Hok by assumption. discriminate. }
  split; [exact Hlen|].
  destruct (String.eqb_spec (id_at buf 0) "RIFF") as [HR|HR].
  2: { destruct (parseWav_bad_magic buf Hlen (or_introl HR)) as [E _].
       congruence. }
  destruct (String.eqb_spec (id_at buf 8) "WAVE") as [HW|HW].
  2: { destruct (parseWav_bad_magic buf Hlen (or_intror HW)) as [E _].
       congruence. }
  split; [exact HR|]. split; [exact HW|].
  unfold parseWav in Hok. destruct (Z.ltb_spec (blen buf) 12); [lia|].
  rewrite !outcome_bind in Hok. cbn [toString_ascii outcome] in Hok.
  rewrite !outcome_bind in Hok. cbn [toString_ascii outcome] in Hok.
  destruct (negb _ || negb _) in Hok; [discriminate|].
  rewrite outcome_bind in Hok.
  destruct (scan_spec (length buf) buf scan_init (scanned_init buf))
    as [_ Hout].
  { unfold blen in *. cbn [scan_init offset]. lia. }
  destruct (outcome (scan (length buf) buf scan_init)) as [st|e|];
    [|discriminate|discriminate].
  destruct Hout as [Hsc _].
  destruct (fmt st) as [f|] eqn:Ef; [|discriminate].
  destruct (data st) as [d|] eqn:Ed; [|discriminate].
  exists st, f, d. cbn in Hok. injection Hok as <-. auto.
Qed.

Lemma le_value_subarray_range (buf : buffer) (s w : Z) :
  0 <= s -> 0 <= w -> s + w <= blen buf ->
  0 <= le_value (subarray buf s (s + w)) < 256 ^ w.
Proof.
  intros Hs Hw He.
  pose proof (le_value_bounds (subarray buf s (s + w))) as Hb.
  rewrite blen_subarray in Hb by lia.
  replace (s + w - s) with w in Hb by lia. exact Hb.
Qed.

Lemma scanned_fmt (buf : buffer) (st : scan_state) (f : fmt_chunk) :
  scanned buf st -> fmt st = Some f ->
  0 <= fmt_audioFormat f < 2 ^ 16 /\ 0 <= fmt_numChannels f < 2 ^ 16 /\
  0 <= fmt_sampleRate f < 2 ^ 32 /\ 0 <= fmt_bitsPerSample f < 2 ^ 16.
Proof.
  intros Hsc. revert f.
  induction Hsc as [|st st' Hsc IH H8 Hstep]; intros f Hf; [discriminate|].
  pose proof (scanned_offset buf st Hsc) as [H12 _].
  pose proof Hstep as Hstep'.
  apply scan_body_continue in Hstep as [-> Hfit]; [|lia|lia].
  unfold next_state in Hf. cbn [fmt] in Hf.
  destruct (String.eqb (id_at buf (offset st)) "fmt ") eqn:Eid; [|auto].
  injection Hf as <-.
  assert (16 <= size_at buf (offset st)) as H16.
  { destruct (scan_body_spec buf st ltac:(lia) H8) as [_ Hspec].
    rewrite Hspec in Hstep'.
    destruct (Z.ltb_spec (blen buf) (offset st + 8 + size_at buf (offset st)));
      [discriminate|].
    rewrite Eid in Hstep'. cbn [andb] in Hstep'.
    destruct (Z.ltb_spec (size_at buf (offset st)) 16); [discriminate|lia]. }
  unfold fmt_at.
  cbn [fmt_audioFormat fmt_numChannels fmt_sampleRate fmt_bitsPerSample].
  change (2 ^ 16) with (256 ^ 2). change (2 ^ 32) with (256 ^ 4).
  repeat split; apply le_value_subarray_range; lia.
Qed.

Lemma scanned_data_even (buf : buffer) (st : scan_state) (d : data_chunk) :
  scanned buf st -> data st = Some d -> Z.even (data_dataOffset d) = true.
Proof.
  intros Hsc. revert d.
  induction Hsc as [|st st' Hsc IH H8 Hstep]; intros d Hd; [discriminate|].
  pose proof (scanned_offset buf st Hsc) as [H12 Hev].
  apply scan_body_continue in Hstep as [-> _]; [|lia|lia].
  unfold next_state in Hd. cbn [data] in Hd.
  destruct (String.eqb (id_at buf (offset st)) "data"); [|auto].
  injection Hd as <-. cbn [data_dataOffset].
  rewrite Z.even_add, Hev. reflexivity.
Qed.

(** X1: the fields of every header [parseWav] returns are in range: the
    three 16-bit fields below 65536, the sample rate and the data size
    below 2^32, the data window starting at an even offset of at least 20
    and ending inside the buffer, and pcmBytes equal to dataSize. *)
Theorem parseWav_header_ranges (buf : buffer) (h : wav_header) :
  outcome (parseWav buf) = Ok h ->
  0 <= audioFormat h < 2 ^ 16 /\ 0 <= numChannels h < 2 ^ 16 /\
  0 <= sampleRate h < 2 ^ 32 /\ 0 <= bitsPerSample h < 2 ^ 16 /\
  20 <= dataOffset h /\ Z.even (dataOffset h) = true /\
  0 <= dataSize h < 2 ^ 32 /\ dataOffset h + dataSize h <= blen buf /\
  pcmBytes h = dataSize h.
Proof.
  intros Hok.
  destruct (parseWav_ok_inv buf h Hok)
    as (_ & _ & _ & st & f & d & Hsc & Hf & Hd & ->).
  destruct (scanned_fmt buf st f Hsc Hf) as (Ha & Hn & Hr & Hb).
  destruct (scanned_data buf st d Hsc Hd) as (Ho & Hs & He).
  pose proof (scanned_data_even buf st d Hsc Hd) as Hev.
  cbn [audioFormat numChannels sampleRate bitsPerSample dataOffset dataSize
       pcmBytes].
  repeat split; try lia; assumption.
Qed.

Lemma parseWav_header_ranges_witness :
  0 <= audioFormat (Header 1 1 16000 16 56 6 6) < 2 ^ 16 /\
  0 <= numChannels (Header 1 1 16000 16 56 6 6) < 2 ^ 16 /\
  0 <= sampleRate (Header 1 1 16000 16 56 6 6) < 2 ^ 32 /\
  0 <= bitsPerSample (Header 1 1 16000 16 56 6 6) < 2 ^ 16 /\
  20 <= dataOffset (Header 1 1 16000 16 56 6 6) /\
  Z.even (dataOffset (Header 1 1 16000 16 56 6 6)) = true /\
  0 <= dataSize (Header 1 1 16000 16 56 6 6) < 2 ^ 32 /\
  dataOffset (Header 1 1 16000 16 56 6 6) +
  dataSize (Header 1 1 16000 16 56 6 6) <= blen fixture /\
  pcmBytes (Header 1 1 16000 16 56 6 6) = dataSize (Header 1 1 16000 16 56 6 6).
Proof.
  apply (parseWav_header_ranges fixture). vm_compute. reflexivity.
Defined.

(** X2: a container without a format chunk is rejected with the
    missing-format error, whether or not it has a data chunk; one with a
    format chunk and no data chunk is rejected with the missing-data
    error. *)
Theorem parseWav_missing_chunk (cs : list chunk) :
  Forall wf_chunk cs ->
  (Forall (fun c => is_fmt c = false) cs ->
   outcome (parseWav (build cs)) = Throw (Error "WAV missing fmt chunk.")) /\
  (Exists (fun c => is_fmt c = true) cs ->
   Forall (fun c => is_data c = false) cs ->
   outcome (parseWav (build cs)) = Throw (Error "WAV missing data chunk.")).
Proof.
  intros Hwf. rewrite parseWav_build by assumption. unfold finish. split.
  - intros Hno. rewrite fmt_absorb_all_none by assumption. reflexivity.
  - intros Hf Hno.
    destruct (fmt_absorb_all_found cs scan_init (or_intror Hf)) as [f ->].
    rewrite data_absorb_all_none by assumption. reflexivity.
Qed.

Lemma parseWav_missing_chunk_witness :
  outcome (parseWav (build [fixture_odd; fixture_data])) =
  Throw (Error "WAV missing fmt chunk.") /\
  outcome (parseWav (build [fixture_odd; fixture_fmt])) =
  Throw (Error "WAV missing data chunk.").
Proof.
  split.
  - apply (proj1 (parseWav_missing_chunk [fixture_odd; fixture_data]
                    ltac:(chunk_tac))).
    repeat constructor.
  - apply (proj2 (parseWav_missing_chunk [fixture_odd; fixture_fmt]
                    ltac:(chunk_tac))).
    + apply Exists_cons. right. apply Exists_cons. left. reflexivity.
    + repeat constructor.
Defined.

(** ** The loop on a buffer that begins with known chunks *)

Lemma subarray_skip (p r : list byte) (s e : Z) :
  0 <= s ->
  subarray (p ++ r) (blen p + s) (blen p + e) = subarray r s e.
Proof.
  intros Hs. unfold subarray, blen.
  replace (Z.of_nat (length p) + e - (Z.of_nat (length p) + s))
    with (e - s) by lia.
  replace (Z.to_nat (Z.of_nat (length p) + s))
    with (length p + Z.to_nat s)%nat by lia.
  rewrite drop_app_add' by reflexivity. reflexivity.
Qed.

Lemma header_at (pre t post : list byte) (size : Z) :
  length t = 4%nat -> 0 <= size < 2 ^ 32 ->
  id_at (pre ++ t ++ u32le size ++ post) (blen pre) = ascii_decode t /\
  size_at (pre ++ t ++ u32le size ++ post) (blen pre) = size.
Proof.
  intros Ht Hsize.
  assert (blen t = 4) as Ht4 by (unfold blen; rewrite Ht; reflexivity).
  unfold id_at, size_at. split.
  - rewrite subarray_exact by lia. reflexivity.
  - rewrite (app_assoc pre t).
    rewrite subarray_exact by (rewrite ?blen_app, ?blen_u32le; lia).
    apply le_value_u32le. exact Hsize.
Qed.

(** The scan of a buffer that starts with the chunks [cs] goes through
    them one pass each. *)
Lemma scan_chunks_prefix (cs : list chunk) :
  forall (fuel : nat) (pre tail : list byte) (st : scan_state),
    Forall wf_chunk cs -> offset st = blen pre ->
    outcome (scan (length cs + fuel) (pre ++ encode_chunks cs ++ tail) st) =
    outcome (scan fuel (pre ++ encode_chunks cs ++ tail) (absorb_all st cs)).
Proof.
  induction cs as [|c cs IH]; intros fuel pre tail st Hwf Hoff;
    [reflexivity|].
  apply Forall_cons in Hwf as [Hc Hcs].
  rewrite encode_chunks_cons, <- app_assoc.
  cbn [length Nat.add scan].
  pose proof (blen_encode_chunk c Hc) as Henc.
  pose proof (blen_nonneg (payload c)) as Hpay.
  pose proof (blen_nonneg (encode_chunks cs)) as Hrest.
  pose proof (blen_nonneg tail) as Htail.
  pose proof (rem2_range (blen (payload c)) Hpay) as Hrem.
  destruct (Z.leb_spec (offset st + 8)
              (blen (pre ++ encode_chunk c ++ encode_chunks cs ++ tail)))
    as [_|Hgt]; [|rewrite !blen_app in Hgt; lia].
  rewrite outcome_bind, scan_body_chunk by assumption.
  rewrite (app_assoc pre).
  rewrite IH; auto using offset_absorb.
Qed.

(** Behind a header check that passes, the result is the loop's final
    state put through the completeness check. *)
Lemma parseWav_scan (buf : buffer) :
  12 <= blen buf -> id_at buf 0 = "RIFF" -> id_at buf 8 = "WAVE" ->
  outcome (parseWav buf) =
  match outcome (scan (length buf) buf scan_init) with
  | Ok st => finish st
  | Throw e => Throw e
  | OutOfFuel => OutOfFuel
  end.
Proof.
  intros Hlen HR HW. unfold parseWav.
  destruct (Z.ltb_spec (blen buf) 12); [lia|].
  rewrite !outcome_bind. cbn [toString_ascii outcome].
  rewrite !outcome_bind. cbn [toString_ascii outcome].
  change (ascii_decode (subarray buf 0 4)) with (id_at buf 0).
  change (ascii_decode (subarray buf 8 12)) with (id_at buf 8).
  rewrite HR, HW.
  change (negb ("RIFF" =? "RIFF")%string || negb ("WAVE" =? "WAVE")%string)
    with false.
  cbv iota. rewrite outcome_bind.
  destruct (outcome (scan (length buf) buf scan_init)) as [st|e|];
    [|reflexivity|reflexivity].
  unfold finish. destruct (fmt st); [|reflexivity].
  destruct (data st); reflexivity.
Qed.

Lemma riff_magic (body : list byte) :
  12 <= blen (riff_header body ++ body) /\
  id_at (riff_header body ++ body) 0 = "RIFF" /\
  id_at (riff_header body ++ body) 8 = "WAVE".
Proof.
  pose proof (blen_riff_header body) as Hhdr.
  pose proof (blen_nonneg body) as Hbody.
  split; [rewrite blen_app; lia|]. unfold id_at. split.
  - assert (subarray (riff_header body ++ body) 0 (0 + 4) =
            list_byte_of_string "RIFF") as ->; [|reflexivity].
    unfold riff_header. rewrite <- !app_assoc.
    apply (subarray_exact []); reflexivity.
  - assert (subarray (riff_header body ++ body) 8 (8 + 4) =
            list_byte_of_string "WAVE") as ->; [|reflexivity].
    unfold riff_header. rewrite <- !app_assoc, app_assoc.
    apply subarray_exact; rewrite blen_app, blen_u32le; reflexivity.
Qed.

(** [parseWav] on the header followed by the chunks [cs] and then
    [tail]: the loop continues at [tail] with the variables the chunks
    left. *)
Lemma parseWav_prefix (cs : list chunk) (tail : list byte) :
  Forall wf_chunk cs ->
  let buf := riff_header (encode_chunks cs ++ tail) ++
             encode_chunks cs ++ tail in
  outcome (parseWav buf) =
  match outcome (scan (length buf - length cs) buf
                   (absorb_all scan_init cs)) with
  | Ok st => finish st
  | Throw e => Throw e
  | OutOfFuel => OutOfFuel
  end.
Proof.
  intros Hwf buf.
  destruct (riff_magic (encode_chunks cs ++ tail)) as (Hlen & HR & HW).
  fold buf in Hlen, HR, HW.
  rewrite (parseWav_scan buf Hlen HR HW).
  assert (length cs <= length buf)%nat as Hcs.
  { subst buf. rewrite !length_app.
    pose proof (length_encode_chunks cs Hwf). lia. }
  replace (length buf) with (length cs + (length buf - length cs))%nat at 1
    by lia.
  subst buf. rewrite scan_chunks_prefix; auto using blen_riff_header.
Qed.

Lemma scan_done (fuel : nat) (buf : buffer) (st : scan_state) :
  blen buf < offset st + 8 -> scan fuel buf st = mret st.
Proof.
  intros H. destruct fuel; cbn [scan];
    destruct (Z.leb_spec (offset st + 8) (blen buf)); (lia || reflexivity).
Qed.

Lemma fmt_at_payload (pre p post : list byte) :
  16 <= blen p -> fmt_at (pre ++ p ++ post) (blen pre) = fmt_of_payload p.
Proof.
  intros Hp. unfold fmt_at, fmt_of_payload.
  rewrite <- !Z.add_assoc.
  rewrite !subarray_inside by lia. reflexivity.
Qed.

(** One pass of the loop at a chunk header followed by its whole
    payload, padded or not. *)
Lemma scan_body_at (pre t p post : list byte) (st : scan_state) :
  length t = 4%nat -> blen p < 2 ^ 32 -> offset st = blen pre ->
  outcome (scan_body (pre ++ t ++ u32le (blen p) ++ p ++ post) st) =
  if String.eqb (ascii_decode t) "fmt " && (blen p <? 16)
  then Throw (Error "Invalid WAV fmt chunk.")
  else Ok (Continue (absorb st (Chunk t p))).
Proof.
  intros Ht Hp Hoff. set (buf := pre ++ t ++ u32le (blen p) ++ p ++ post).
  pose proof (blen_nonneg pre) as Hpre. pose proof (blen_nonneg p) as Hp0.
  pose proof (blen_nonneg post) as Hpost.
  assert (blen t = 4) as Ht4 by (unfold blen; rewrite Ht; reflexivity).
  assert (blen buf = blen pre + 8 + blen p + blen post) as Hlen
    by (subst buf; rewrite !blen_app, blen_u32le; lia).
  destruct (header_at pre t (p ++ post) (blen p) Ht ltac:(lia)) as [Hid Hsz].
  fold buf in Hid, Hsz.
  destruct (scan_body_spec buf st ltac:(lia) ltac:(lia)) as [_ ->].
  rewrite Hoff, Hid, Hsz.
  destruct (Z.ltb_spec (blen buf) (blen pre + 8 + blen p)); [lia|].
  destruct (String.eqb (ascii_decode t) "fmt " && (blen p <? 16)) eqn:Ebad;
    [reflexivity|].
  do 2 f_equal. unfold next_state, absorb, is_fmt, is_data, chunk_id.
  cbn [tag payload]. rewrite Hoff, Hid, Hsz. f_equal.
  destruct (String.eqb (ascii_decode t) "fmt ") eqn:Efmt; [|reflexivity].
  cbn [andb] in Ebad. apply Z.ltb_ge in Ebad. f_equal.
  subst buf. rewrite (app_assoc pre t), (app_assoc (pre ++ t)).
  replace (blen pre + 8) with (blen ((pre ++ t) ++ u32le (blen p)))
    by (rewrite !blen_app, blen_u32le; lia).
  apply fmt_at_payload. exact Ebad.
Qed.

(** X3: a format chunk with fewer than 16 payload bytes makes the whole
    parse fail, even when a valid format chunk and a data chunk came
    before it and whatever follows it. *)
Theorem parseWav_short_fmt_fatal (before : list chunk)
    (t p post : list byte) :
  Forall wf_chunk before ->
  length t = 4%nat -> ascii_decode t = "fmt " -> blen p < 16 ->
  outcome (parseWav (build_with before (t ++ u32le (blen p) ++ p ++ post))) =
  Throw (Error "Invalid WAV fmt chunk.").
Proof.
  intros Hwf Ht Hfmt Hp. unfold build_with.
  set (tail := t ++ u32le (blen p) ++ p ++ post).
  rewrite (parseWav_prefix before tail Hwf).
  set (buf := riff_header (encode_chunks before ++ tail) ++
              encode_chunks before ++ tail).
  set (st := absorb_all scan_init before).
  assert (offset st = blen (riff_header (encode_chunks before ++ tail) ++
                            encode_chunks before)) as Hoff.
  { subst st. rewrite offset_absorb_all, blen_app, blen_riff_header
      by assumption. reflexivity. }
  assert (blen tail = 8 + blen p + blen post) as Htail.
  { subst tail. rewrite !blen_app, blen_u32le. unfold blen at 1.
    rewrite Ht. lia. }
  pose proof (blen_nonneg p) as Hp0. pose proof (blen_nonneg post) as Hpost.
  assert (blen buf = offset st + blen tail) as Hlen
    by (subst buf; rewrite Hoff, !blen_app; lia).
  assert (length before + 8 <= length buf)%nat as Hfuel.
  { pose proof (length_encode_chunks before Hwf).
    subst buf. rewrite !length_app. unfold blen in Htail. lia. }
  destruct (length buf - length before)%nat as [|fuel] eqn:Ef; [lia|].
  cbn [scan]. destruct (Z.leb_spec (offset st + 8) (blen buf)); [|lia].
  rewrite outcome_bind. subst buf tail. rewrite app_assoc.
  rewrite (scan_body_at _ t p post st Ht ltac:(lia) Hoff).
  rewrite Hfmt. destruct (Z.ltb_spec (blen p) 16); [reflexivity|lia].
Qed.

Lemma parseWav_short_fmt_fatal_witness :
  outcome (parseWav (build_with [fixture_fmt; fixture_data]
             (fmt_tag ++ u32le (blen [x01; x00; x01; x00]) ++
              [x01; x00; x01; x00] ++ encode_chunk fixture_data))) =
  Throw (Error "Invalid WAV fmt chunk.").
Proof.
  apply parseWav_short_fmt_fatal.
  - chunk_tac.
  - reflexivity.
  - reflexivity.
  - reflexivity.
Defined.

(** X4: the last chunk of a file may come without its pad byte, and up
    to seven stray bytes after the last chunk are ignored: both files
    parse as the well-formed container does. *)
Theorem parseWav_unpadded_or_stray_end (cs : list chunk) :
  Forall wf_chunk cs ->
  (forall c : chunk,
      wf_chunk c ->
      outcome (parseWav (build_with cs (unpadded_chunk c))) =
      outcome (parseWav (build (cs ++ [c])))) /\
  (forall stray : list byte,
      blen stray < 8 ->
      outcome (parseWav (build_with cs stray)) = outcome (parseWav (build cs))).
Proof.
  intros Hwf. split.
  - intros c Hc. pose proof Hc as (Htag & Hsize & Hfmt).
    rewrite (parseWav_build (cs ++ [c]))
      by (apply Forall_app; split; [assumption|forall_tac]).
    rewrite absorb_all_app. cbn [absorb_all fold_left].
    unfold build_with. set (tail := unpadded_chunk c).
    rewrite (parseWav_prefix cs tail Hwf).
    set (buf := riff_header (encode_chunks cs ++ tail) ++
                encode_chunks cs ++ tail).
    set (st := absorb_all scan_init cs).
    assert (offset st = blen (riff_header (encode_chunks cs ++ tail) ++
                              encode_chunks cs)) as Hoff.
    { subst st. rewrite offset_absorb_all, blen_app, blen_riff_header
        by assumption. reflexivity. }
    pose proof (blen_nonneg (payload c)) as Hp0.
    assert (blen tail = 8 + blen (payload c)) as Htail.
    { subst tail. unfold unpadded_chunk.
      rewrite !blen_app, blen_u32le, (blen_tag c Hc). lia. }
    assert (blen buf = offset st + blen tail) as Hlen
      by (subst buf; rewrite Hoff, !blen_app; lia).
    assert (length cs + 8 <= length buf)%nat as Hfuel.
    { pose proof (length_encode_chunks cs Hwf).
      subst buf. rewrite !length_app. unfold blen in Htail. lia. }
    destruct (length buf - length cs)%nat as [|fuel] eqn:Ef; [lia|].
    cbn [scan]. destruct (Z.leb_spec (offset st + 8) (blen buf)); [|lia].
    rewrite outcome_bind.
    assert (outcome (scan_body buf st) = Ok (Continue (absorb st c))) as ->.
    { subst buf. set (hdr := riff_header (encode_chunks cs ++ tail)) in *.
      subst tail. unfold unpadded_chunk.
      rewrite app_assoc.
      rewrite <- (app_nil_r (payload c)) at 2.
      rewrite (scan_body_at _ (tag c) (payload c) [] st Htag Hsize Hoff).
      destruct c as [t p]. cbn [tag payload] in *.
      destruct (String.eqb (ascii_decode t) "fmt ") eqn:E; [|reflexivity].
      specialize (Hfmt E).
      destruct (Z.ltb_spec (blen p) 16); [lia|reflexivity]. }
    rewrite scan_done; [reflexivity|].
    pose proof (rem2_range (blen (payload c)) Hp0).
    unfold absorb. cbn [offset]. lia.
  - intros stray Hstray.
    rewrite parseWav_build_with, parseWav_build by (assumption || (left; lia)).
    reflexivity.
Qed.

Lemma parseWav_unpadded_or_stray_end_witness :
  outcome (parseWav (build_with [fixture_fmt; fixture_data]
                       (unpadded_chunk fixture_odd))) =
  outcome (parseWav (build ([fixture_fmt; fixture_data] ++ [fixture_odd]))) /\
  outcome (parseWav (build_with [fixture_fmt; fixture_data] [x00; x01; x02])) =
  outcome (parseWav (build [fixture_fmt; fixture_data])).
Proof.
  pose proof (parseWav_unpadded_or_stray_end [fixture_fmt; fixture_data]
                ltac:(chunk_tac)) as [H1 H2].
  split.
  - apply H1. chunk_tac.
  - apply H2. reflexivity.
Defined.

(** ** What the parser does not look at *)

Lemma scan_agree (fuel : nat) :
  forall (buf buf' : buffer) (st : scan_state),
    blen buf = blen buf' ->
    (forall s e : Z, 8 <= s -> subarray buf s e = subarray buf' s e) ->
    12 <= offset st ->
    outcome (scan fuel buf st) = outcome (scan fuel buf' st).
Proof.
  induction fuel as [|fuel IH]; intros buf buf' st Hlen Hsame H12;
    cbn [scan]; rewrite <- Hlen;
    destruct (Z.leb_spec (offset st + 8) (blen buf)) as [H8|_];
    try reflexivity.
  rewrite !outcome_bind.
  destruct (scan_body_spec buf st ltac:(lia) H8) as [_ ->].
  destruct (scan_body_spec buf' st ltac:(lia) ltac:(lia)) as [_ ->].
  assert (size_at buf' (offset st) = size_at buf (offset st)) as ->
    by (unfold size_at; rewrite Hsame by lia; reflexivity).
  assert (id_at buf' (offset st) = id_at buf (offset st)) as ->
    by (unfold id_at; rewrite Hsame by lia; reflexivity).
  assert (next_state buf' st = next_state buf st) as ->.
  { unfold next_state, fmt_at, size_at, id_at.
    rewrite !(Hsame (offset st + _)) by lia.
    rewrite (Hsame (offset st)) by lia.
    rewrite !(Hsame (offset st + 8 + _)) by lia. reflexivity. }
  rewrite <- Hlen.
  pose proof (size_at_range buf (offset st) ltac:(lia) H8) as Hsz.
  destruct (Z.ltb_spec (blen buf) (offset st + 8 + size_at buf (offset st)));
    [reflexivity|].
  destruct (String.eqb (id_at buf (offset st)) "fmt " &&
            (size_at buf (offset st) <? 16)); [reflexivity|].
  apply IH; try assumption.
  pose proof (rem2_range (size_at buf (offset st)) ltac:(lia)).
  unfold next_state. cbn [offset]. lia.
Qed.

(** X5: bytes 4 to 8 of the file, the size the RIFF header declares, are
    never looked at: two buffers that differ only there parse alike. *)
Theorem parseWav_ignores_riff_size (magic size size' rest : list byte) :
  length magic = 4%nat -> length size = 4%nat -> length size' = 4%nat ->
  outcome (parseWav (magic ++ size ++ rest)) =
  outcome (parseWav (magic ++ size' ++ rest)).
Proof.
  intros Hm Hs Hs'.
  set (buf := magic ++ size ++ rest). set (buf' := magic ++ size' ++ rest).
  assert (blen buf = blen buf') as Hlen.
  { subst buf buf'. unfold blen. rewrite !length_app, Hs, Hs'. reflexivity. }
  assert (forall s e : Z, 8 <= s -> subarray buf s e = subarray buf' s e)
    as Hsame.
  { intros s e H8.
    assert (forall p r : list byte,
               blen p = 8 ->
               subarray (p ++ r) s e = subarray r (s - 8) (e - 8)) as Hskip.
    { intros p r Hp.
      transitivity (subarray (p ++ r) (blen p + (s - 8)) (blen p + (e - 8)));
        [f_equal; lia|apply subarray_skip; lia]. }
    subst buf buf'. rewrite !app_assoc.
    rewrite !Hskip
      by (unfold blen; rewrite length_app, Hm, ?Hs, ?Hs'; reflexivity).
    reflexivity. }
  assert (id_at buf 0 = id_at buf' 0) as Hid0.
  { assert (forall r : list byte, subarray (magic ++ r) 0 (0 + 4) = magic)
      as Hhead.
    { intros r. apply (subarray_exact [] magic r); [reflexivity|].
      unfold blen. rewrite Hm. reflexivity. }
    unfold id_at. subst buf buf'. rewrite !Hhead. reflexivity. }
  assert (id_at buf 8 = id_at buf' 8) as Hid8
    by (unfold id_at; rewrite Hsame by lia; reflexivity).
  destruct (Z.lt_ge_cases (blen buf) 12) as [Hshort|Hlong].
  { rewrite !parseWav_short by lia. reflexivity. }
  destruct (String.eqb_spec (id_at buf 0) "RIFF") as [HR|HR].
  2: { destruct (parseWav_bad_magic buf Hlong (or_introl HR)) as [-> _].
       rewrite Hid0 in HR.
       destruct (parseWav_bad_magic buf' ltac:(lia) (or_introl HR))
         as [-> _].
       reflexivity. }
  destruct (String.eqb_spec (id_at buf 8) "WAVE") as [HW|HW].
  2: { destruct (parseWav_bad_magic buf Hlong (or_intror HW)) as [-> _].
       rewrite Hid8 in HW.
       destruct (parseWav_bad_magic buf' ltac:(lia) (or_intror HW))
         as [-> _].
       reflexivity. }
  rewrite (parseWav_scan buf Hlong HR HW).
  rewrite (parseWav_scan buf' ltac:(lia) ltac:(congruence) ltac:(congruence)).
  assert (length buf' = length buf) as -> by (unfold blen in Hlen; lia).
  rewrite (scan_agree (length buf) buf buf' scan_init Hlen Hsame);
    [reflexivity|cbn; lia].
Qed.

Lemma parseWav_ignores_riff_size_witness :
  outcome (parseWav (list_byte_of_string "RIFF" ++ u32le 54 ++ drop 8 fixture)) =
  outcome (parseWav (list_byte_of_string "RIFF" ++ [xff; xff; xff; xff] ++
                     drop 8 fixture)).
Proof. apply parseWav_ignores_riff_size; reflexivity. Defined.

(** X6: the parser never looks inside the payload of a chunk that is not
    a format chunk: replacing the samples (or the content of any other
    such chunk) by bytes of the same number leaves the result, header
    fields and data window alike, unchanged. *)
Theorem parseWav_ignores_payload_content (before after : list chunk)
    (t p p' : list byte) :
  Forall wf_chunk before -> Forall wf_chunk after ->
  length t = 4%nat -> String.eqb (ascii_decode t) "fmt " = false ->
  blen p = blen p' -> blen p < 2 ^ 32 ->
  outcome (parseWav (build (before ++ Chunk t p :: after))) =
  outcome (parseWav (build (before ++ Chunk t p' :: after))).
Proof.
  intros Hb Ha Ht Hnf Hlen Hsize.
  assert (forall q : list byte,
             blen q = blen p -> wf_chunk (Chunk t q)) as Hwf.
  { intros q Hq. split; [exact Ht|]. cbn [payload]. split; [lia|].
    unfold is_fmt, chunk_id. cbn [tag]. congruence. }
  rewrite !parseWav_build by (wf_all_tac; auto using eq_sym).
  rewrite !absorb_all_app. cbn [absorb_all fold_left].
  assert (forall st : scan_state,
             absorb st (Chunk t p) = absorb st (Chunk t p')) as ->;
    [|reflexivity].
  intros st. unfold absorb, is_fmt, is_data, chunk_id.
  cbn [tag payload]. rewrite Hnf, Hlen. reflexivity.
Qed.

Lemma parseWav_ignores_payload_content_witness :
  outcome (parseWav (build ([fixture_fmt; fixture_odd] ++
                            Chunk data_tag fixture_samples :: []))) =
  outcome (parseWav (build ([fixture_fmt; fixture_odd] ++
                            Chunk data_tag [xff; xff; xff; xff; xff; xff]
                            :: []))).
Proof.
  apply parseWav_ignores_payload_content.
  - chunk_tac.
  - constructor.
  - reflexivity.
  - reflexivity.
  - reflexivity.
  - reflexivity.
Defined.

(** ** Writing and reading back the format chunk *)

Lemma blen_fmt_payload (af nc sr byteRate blockAlign bps : Z)
    (ext : list byte) :
  blen (fmt_payload af nc sr byteRate blockAlign bps ext) = 16 + blen ext.
Proof.
  unfold fmt_payload. rewrite !blen_app, !blen_u16le, !blen_u32le. lia.
Qed.

Lemma fmt_of_payload_written (af nc sr byteRate blockAlign bps : Z)
    (ext : list byte) :
  0 <= af < 2 ^ 16 -> 0 <= nc < 2 ^ 16 -> 0 <= sr < 2 ^ 32 ->
  0 <= bps < 2 ^ 16 ->
  fmt_of_payload (fmt_payload af nc sr byteRate blockAlign bps ext) =
  Fmt af nc sr bps.
Proof.
  intros Haf Hnc Hsr Hbps. unfold fmt_of_payload.
  set (p := fmt_payload af nc sr byteRate blockAlign bps ext).
  change (subarray p 0 2) with (u16le af).
  change (subarray p 2 4) with (u16le nc).
  change (subarray p 4 8) with (u32le sr).
  change (subarray p 14 16) with (u16le bps).
  rewrite !le_value_u16le, le_value_u32le by assumption. reflexivity.
Qed.

(** X7: a file written with a 16-byte format chunk first is read back
    with the format fields that were written, whatever byte rate and
    block align were written beside them; the data window starts at 44
    when the data chunk follows at once, and later by the encoded length
    of the chunks in between. *)
Theorem parseWav_written_file (af nc sr byteRate blockAlign bps : Z)
    (mid : list chunk) (samples : list byte) :
  0 <= af < 2 ^ 16 -> 0 <= nc < 2 ^ 16 -> 0 <= sr < 2 ^ 32 ->
  0 <= bps < 2 ^ 16 ->
  Forall other_chunk mid -> blen samples < 2 ^ 32 ->
  outcome (parseWav (build (Chunk fmt_tag
                              (fmt_payload af nc sr byteRate blockAlign bps [])
                            :: mid ++ [Chunk data_tag samples]))) =
  Ok (Header af nc sr bps (44 + blen (encode_chunks mid))
             (blen samples) (blen samples)).
Proof.
  intros Haf Hnc Hsr Hbps Hmid Hs.
  set (F := Chunk fmt_tag (fmt_payload af nc sr byteRate blockAlign bps [])).
  set (D := Chunk data_tag samples).
  assert (wf_chunk F) as HF.
  { apply wf_fmt_chunk. rewrite blen_fmt_payload.
    change (blen []) with 0. lia. }
  pose proof (wf_data_chunk samples Hs) as HD.
  rewrite (parseWav_last_chunks (F :: mid ++ [D]) [] (mid ++ [D])
             (F :: mid) [] F D); try reflexivity.
  - subst F D. cbn [payload].
    rewrite fmt_of_payload_written by assumption.
    cbn [fmt_audioFormat fmt_numChannels fmt_sampleRate fmt_bitsPerSample].
    rewrite encode_chunks_cons, blen_app.
    rewrite blen_encode_chunk
      by (apply wf_fmt_chunk; rewrite blen_fmt_payload;
          change (blen []) with 0; lia).
    cbn [payload]. rewrite blen_fmt_payload. change (blen []) with 0.
    f_equal. f_equal. change (Z.rem (16 + 0) 2) with 0. lia.
  - apply Forall_cons. split; [exact HF|].
    apply Forall_app. split; [auto using other_chunks_wf|forall_tac].
  - apply Forall_app. split; [auto using other_chunks_no_fmt|].
    forall_tac. reflexivity.
  - constructor.
Qed.

Lemma parseWav_written_file_witness :
  outcome (parseWav (build (Chunk fmt_tag (fmt_payload 1 1 44100 88200 2 16 [])
                            :: [] ++ [Chunk data_tag fixture_samples]))) =
  Ok (Header 1 1 44100 16 (44 + blen (encode_chunks []))
             (blen fixture_samples) (blen fixture_samples)).
Proof.
  apply parseWav_written_file; try lia; [constructor|reflexivity].
Defined.

(** * Further properties of the handlers *)

Section Answers.
Context {rt : Runtime}.

(** X8: the three required fields are checked in the order audioBase64,
    referenceText, locale, before the configuration and the audio are
    looked at: the first one that is missing or falsy decides the 400
    answer, whatever the environment holds; a body that is not an object
    (null, a number, a string, an array) is answered as one without
    audioBase64. *)
Theorem assess_field_validation (env : gmap string string)
    (request : list byte) (body : json) :
  readJsonBody request = Ok body ->
  (truthy_opt (get_field (fields_of body) "audioBase64") = false ->
   assess_handler env request =
   Ok (error_response 400 "audioBase64 (string) is required.")) /\
  (truthy_opt (get_field (fields_of body) "audioBase64") = true ->
   truthy_opt (get_field (fields_of body) "referenceText") = false ->
   assess_handler env request =
   Ok (error_response 400 "referenceText (string) is required.")) /\
  (truthy_opt (get_field (fields_of body) "audioBase64") = true ->
   truthy_opt (get_field (fields_of body) "referenceText") = true ->
   truthy_opt (get_field (fields_of body) "locale") = false ->
   assess_handler env request =
   Ok (error_response 400 "locale (string) is required.")) /\
  ((forall members, body <> JObject members) ->
   assess_handler env request =
   Ok (error_response 400 "audioBase64 (string) is required.")).
Proof.
  intros Hbody.
  assert (truthy_opt (get_field (fields_of body) "audioBase64") = false ->
          assess_handler env request =
          Ok (error_response 400 "audioBase64 (string) is required."))
    as Haudio.
  { intros Ha. unfold assess_handler, assess_try.
    rewrite (result_bind_ok _ _ _ Hbody). cbv zeta. rewrite Ha.
    reflexivity. }
  split; [exact Haudio|]. split; [|split].
  - intros Ha Ht. unfold assess_handler, assess_try.
    rewrite (result_bind_ok _ _ _ Hbody). cbv zeta. rewrite Ha, Ht.
    reflexivity.
  - intros Ha Ht Hl. unfold assess_handler, assess_try.
    rewrite (result_bind_ok _ _ _ Hbody). cbv zeta. rewrite Ha, Ht, Hl.
    reflexivity.
  - intros Hobj. apply Haudio. unfold fields_of.
    destruct (truthy body); [|reflexivity].
    destruct body; try reflexivity. exfalso. eapply Hobj. reflexivity.
Qed.

(** X9: the codec checks run in the order audioFormat, numChannels,
    bitsPerSample on the parsed header; the first field that is off
    decides the 400 answer, and its message carries the value found. *)
Theorem assess_codec_validation (env : gmap string string)
    (request : list byte) (body : json) (wav : buffer) (h : wav_header) :
  reaches_parser env request body wav ->
  outcome (parseWav wav) = Ok h ->
  (audioFormat h <> 1 ->
   assess_handler env request =
   Ok (error_response 400
         ("audioFormat=" +:+ pretty (audioFormat h) +:+
          ". Expected PCM (1)."))) /\
  (audioFormat h = 1 -> numChannels h <> 1 ->
   assess_handler env request =
   Ok (error_response 400
         ("channels=" +:+ pretty (numChannels h) +:+
          ". Expected mono (1)."))) /\
  (audioFormat h = 1 -> numChannels h = 1 -> bitsPerSample h <> 16 ->
   assess_handler env request =
   Ok (error_response 400
         ("bitsPerSample=" +:+ pretty (bitsPerSample h) +:+
          ". Expected 16."))).
Proof.
  intros Hreach Hh. unfold assess_handler.
  rewrite (assess_try_reaches_parser env request body wav Hreach).
  unfold assess_audio. rewrite Hh. cbn [mbind result_bind].
  repeat split.
  - intros Haf. apply Z.eqb_neq in Haf. rewrite Haf. reflexivity.
  - intros Haf Hnc. apply Z.eqb_neq in Hnc. rewrite Haf, Hnc. reflexivity.
  - intros Haf Hnc Hbps. apply Z.eqb_neq in Hbps.
    rewrite Haf, Hnc, Hbps. reflexivity.
Qed.

(** X10: a 200 answer is only ever given for a request whose three
    fields are truthy, under a configured key and region, whose audio
    parsed to a PCM, mono, 16-bit header; the recognition service was
    given that header and exactly the bytes of the data window, as many
    as dataSize says. *)
Theorem assess_200_provenance (env : gmap string string)
    (request : list byte) (b : json_body assessment) :
  assess_handler env request = Ok (Response 200 b) ->
  exists (body : json) (wav : buffer) (h : wav_header) (a : assessment),
    reaches_parser env request body wav /\
    outcome (parseWav wav) = Ok h /\
    audioFormat h = 1 /\ numChannels h = 1 /\ bitsPerSample h = 16 /\
    let pcm := subarray wav (dataOffset h) (dataOffset h + dataSize h) in
    blen pcm = dataSize h /\
    recognizeOnce
      (AssessInput (assess_speechKey env) (assess_speechRegion env)
         (get_field (fields_of body) "locale")
         (get_field (fields_of body) "referenceText") pcm h) = Ok a /\
    b = AssessBody a.
Proof.
  unfold assess_handler. intros H.
  destruct (assess_try env request) as [r|e|] eqn:Etry;
    [|discriminate|discriminate].
  injection H as ->. unfold assess_try in Etry.
  destruct (readJsonBody request) as [body|e|] eqn:Ebody;
    cbn [mbind result_bind] in Etry; [|discriminate|discriminate].
  cbv zeta in Etry.
  destruct (truthy_opt (get_field (fields_of body) "audioBase64")) eqn:Ea;
    cbn [negb] in Etry; [|discriminate].
  destruct (truthy_opt (get_field (fields_of body) "referenceText")) eqn:Et;
    cbn [negb] in Etry; [|discriminate].
  destruct (truthy_opt (get_field (fields_of body) "locale")) eqn:El;
    cbn [negb] in Etry; [|discriminate].
  destruct (env_truthy (assess_speechKey env)) eqn:Ek;
    cbn [negb orb] in Etry; [|discriminate].
  destruct (env_truthy (assess_speechRegion env)) eqn:Er;
    cbn [negb orb] in Etry; [|discriminate].
  destruct (Buffer_from_base64 (get_field (fields_of body) "audioBase64"))
    as [wav|e|] eqn:Ewav; cbn [mbind result_bind] in Etry;
    [|discriminate|discriminate].
  unfold assess_audio in Etry.
  destruct (outcome (parseWav wav)) as [h|e|] eqn:Eh;
    cbn [mbind result_bind] in Etry; [|discriminate|discriminate].
  destruct (Z.eqb_spec (audioFormat h) 1) as [Haf|_];
    cbn [negb] in Etry; [|discriminate].
  destruct (Z.eqb_spec (numChannels h) 1) as [Hnc|_];
    cbn [negb] in Etry; [|discriminate].
  destruct (Z.eqb_spec (bitsPerSample h) 16) as [Hbps|_];
    cbn [negb] in Etry; [|discriminate].
  match type of Etry with
  | context [recognizeOnce ?i] => destruct (recognizeOnce i) as [a|e|] eqn:Erec
  end; cbn [mbind result_bind mret result_ret] in Etry;
    [|discriminate|discriminate].
  injection Etry as <-.
  exists body, wav, h, a.
  split; [repeat split; assumption|]. split; [exact Eh|].
  repeat (split; [assumption|]). cbv zeta.
  split; [|split; [exact Erec|reflexivity]].
  destruct (parseWav_spec wav) as [_ Hspec]. rewrite Eh in Hspec.
  rewrite blen_subarray by lia. lia.
Qed.


(** X12: the token endpoint answers 200 only when SPEECH_KEY is set and
    the token request succeeded; the region it returns is SPEECH_REGION
    or canadacentral, never empty, and is the region the token was asked
    for.  Every other answer is a 500 with an error message. *)
Theorem token_answers (env : gmap string string)
    (r : response assessment) :
  token_handler env = Ok r ->
  (exists (token : string) (region : option string),
      r = Response 200 (TokenBody token region) /\
      env_truthy (env !! "SPEECH_KEY") = true /\
      env_truthy region = true /\
      (region = env !! "SPEECH_REGION" \/ region = Some "canadacentral") /\
      issueToken region (env !! "SPEECH_KEY") = Ok token) \/
  (exists m : string, r = Response 500 (ErrorBody m)).
Proof.
  unfold token_handler. intros H.
  destruct (env_truthy (env !! "SPEECH_KEY")) eqn:Ek; cbn [negb] in H.
  2: { injection H as <-. right. eexists. reflexivity. }
  destruct (issueToken _ _) as [token|e|] eqn:Etok;
    [|injection H as <-; right; eexists; reflexivity|discriminate].
  injection H as <-. left. eexists. eexists.
  split; [reflexivity|]. split; [reflexivity|].
  split; [|split; [|exact Etok]]; unfold env_or;
    destruct (env_truthy (env !! "SPEECH_REGION")) eqn:Er; auto.
Qed.

End Answers.

Lemma assess_field_validation_witness :
  @assess_handler test_runtime ∅ request_without_locale =
  Ok (@error_response test_runtime 400 "locale (string) is required.").
Proof.
  assert (@readJsonBody test_runtime request_without_locale =
          Ok (JObject [(js "audioBase64", JString (js "AAAA"));
                       (js "referenceText", JString (js "ni hao"))]))
    as Hbody by (vm_compute; reflexivity).
  apply (proj1 (proj2 (proj2 (@assess_field_validation test_runtime ∅
                                request_without_locale _ Hbody))));
    vm_compute; reflexivity.
Defined.

Lemma assess_codec_validation_witness :
  @assess_handler test_runtime configured_env (request_of_wav stereo_fixture) =
  Ok (@error_response test_runtime 400
        ("channels=" +:+ pretty (numChannels (Header 1 2 16000 16 44 6 6)) +:+
         ". Expected mono (1).")).
Proof.
  assert (@reaches_parser test_runtime configured_env
            (request_of_wav stereo_fixture)
            (JObject [(js "audioBase64",
                       JString (js (base64_encode stereo_fixture)));
                      (js "referenceText", JString (js "ni hao"));
                      (js "locale", JString (js "zh-CN"))])
            stereo_fixture) as Hreach
    by (repeat split; vm_compute; reflexivity).
  assert (outcome (parseWav stereo_fixture) = Ok (Header 1 2 16000 16 44 6 6))
    as Hh by (vm_compute; reflexivity).
  apply (proj1 (proj2 (@assess_codec_validation test_runtime configured_env
                         (request_of_wav stereo_fixture) _ stereo_fixture
                         (Header 1 2 16000 16 44 6 6) Hreach Hh))).
  - reflexivity.
  - cbn. discriminate.
Defined.

Lemma assess_200_provenance_witness :
  exists (body : json) (wav : buffer) (h : wav_header) (a : list byte),
    @reaches_parser test_runtime configured_env (request_of_wav fixture)
      body wav /\
    outcome (parseWav wav) = Ok h /\
    audioFormat h = 1 /\ numChannels h = 1 /\ bitsPerSample h = 16 /\
    let pcm := subarray wav (dataOffset h) (dataOffset h + dataSize h) in
    blen pcm = dataSize h /\
    @recognizeOnce test_runtime
      (AssessInput (assess_speechKey configured_env)
         (assess_speechRegion configured_env)
         (get_field (fields_of body) "locale")
         (get_field (fields_of body) "referenceText") pcm h) = Ok a /\
    AssessBody fixture_samples = AssessBody a.
Proof.
  apply (@assess_200_provenance test_runtime configured_env
           (request_of_wav fixture) (AssessBody fixture_samples)).
  vm_compute. reflexivity.
Defined.


Lemma token_answers_witness :
  (exists (token : string) (region : option string),
      @Response (@assessment test_runtime) 200
        (TokenBody "token:key1" (Some "eastus")) =
      Response 200 (TokenBody token region) /\
      env_truthy (configured_env !! "SPEECH_KEY") = true /\
      env_truthy region = true /\
      (region = configured_env !! "SPEECH_REGION" \/
       region = Some "canadacentral") /\
      @issueToken test_runtime region (configured_env !! "SPEECH_KEY")
      = Ok token) \/
  (exists m : string,
      @Response (@assessment test_runtime) 200
        (TokenBody "token:key1" (Some "eastus")) =
      Response 500 (ErrorBody m)).
Proof.
  apply (@token_answers test_runtime configured_env).
  vm_compute. reflexivity.
Defined.

(** ** base64: what a client encodes is what the handler decodes *)

Lemma byte_of_Z_unique (v : Z) (b : byte) :
  v mod 256 = byte_val b -> byte_of_Z v = b.
Proof.
  intros H. unfold byte_of_Z. rewrite H. unfold byte_val.
  rewrite N2Z.id, Byte.of_to_N. reflexivity.
Qed.

Lemma sextet_arith (x y z : Z) :
  0 <= x < 256 -> 0 <= y < 256 -> 0 <= z < 256 ->
  let n := x * 65536 + y * 256 + z in
  0 <= n / 262144 < 64 /\
  (n / 262144 * 4 + n / 4096 mod 64 / 16) mod 256 = x /\
  (n / 4096 mod 64 * 16 + n / 64 mod 64 / 4) mod 256 = y /\
  (n / 64 mod 64 * 64 + n mod 64) mod 256 = z.
Proof.
  intros Hx Hy Hz n. subst n.
  repeat split; Z.div_mod_to_equations; lia.
Qed.

Lemma unbase64_base64_char (v : Z) :
  0 <= v < 64 ->
  unbase64 (Byte.to_N (byte_of_ascii (base64_char v)) mod 256)%N = Some v.
Proof.
  intros Hv. rewrite <- (Z2Nat.id v) by lia.
  assert (Z.to_nat v < 64)%nat as Hn by lia.
  generalize dependent (Z.to_nat v). intros n Hn.
  do 64 (destruct n as [|n]; [vm_compute; reflexivity|]). lia.
Qed.

Lemma sextets_base64_char (v : Z) (s : string) :
  0 <= v < 64 ->
  sextets (js (String (base64_char v) s)) = v :: sextets (js s).
Proof.
  intros Hv. change (js (String (base64_char v) s))
    with (Byte.to_N (byte_of_ascii (base64_char v)) :: js s).
  cbn [sextets]. rewrite (unbase64_base64_char v Hv). reflexivity.
Qed.

Lemma mod64_range (n : Z) : 0 <= n mod 64 < 64.
Proof. apply Z.mod_pos_bound. lia. Qed.

Lemma base64_round_trip_upto (bs : list byte) :
  base64_decode (js (base64_encode bs)) = bs /\
  (forall a, base64_decode (js (base64_encode (a :: bs))) = a :: bs) /\
  (forall a b, base64_decode (js (base64_encode (a :: b :: bs))) = a :: b :: bs).
Proof.
  induction bs as [|c bs (IH0 & IH1 & IH2)].
  - split; [reflexivity|]. split.
    + intros a. pose proof (byte_val_range a) as Ha.
      destruct (sextet_arith (byte_val a) 0 0 Ha ltac:(lia) ltac:(lia))
        as (H1 & Hx & _). cbv zeta in H1, Hx.
      replace (byte_val a * 65536 + 0 * 256 + 0) with (byte_val a * 65536)
        in H1, Hx by lia.
      unfold base64_decode. cbn [base64_encode].
      rewrite !sextets_base64_char by (assumption || apply mod64_range).
      change (sextets (js "==")) with (@nil Z). cbn [pack_sextets].
      f_equal. apply byte_of_Z_unique. exact Hx.
    + intros a b. pose proof (byte_val_range a) as Ha.
      pose proof (byte_val_range b) as Hb.
      destruct (sextet_arith (byte_val a) (byte_val b) 0 Ha Hb ltac:(lia))
        as (H1 & Hx & Hy & _). cbv zeta in H1, Hx, Hy.
      replace (byte_val a * 65536 + byte_val b * 256 + 0)
        with (byte_val a * 65536 + byte_val b * 256) in H1, Hx, Hy by lia.
      unfold base64_decode. cbn [base64_encode].
      rewrite !sextets_base64_char by (assumption || apply mod64_range).
      change (sextets (js "=")) with (@nil Z). cbn [pack_sextets].
      f_equal; [|f_equal]; apply byte_of_Z_unique; assumption.
  - split; [apply IH1|]. split; [intros a; apply IH2|].
    intros a b. pose proof (byte_val_range a) as Ha.
    pose proof (byte_val_range b) as Hb. pose proof (byte_val_range c) as Hc.
    destruct (sextet_arith (byte_val a) (byte_val b) (byte_val c) Ha Hb Hc)
      as (H1 & Hx & Hy & Hz). cbv zeta in H1, Hx, Hy, Hz.
    unfold base64_decode in *. cbn [base64_encode].
    rewrite !sextets_base64_char by (assumption || apply mod64_range).
    cbn [pack_sextets]. rewrite IH0.
    f_equal; [|f_equal; [|f_equal]]; apply byte_of_Z_unique; assumption.
Qed.

Section Upload.
Context {rt : Runtime}.

(** X13: round trip of the audio field: the standard base64 text of any
    byte sequence, with its padding, is decoded by the handler back to
    exactly those bytes; so a request that carries a file this way, with
    the other two fields present and key and region configured, has that
    very file given to [parseWav]. *)
Theorem assess_base64_round_trip (wav : buffer) :
  Buffer_from_base64 (Some (JString (js (base64_encode wav)))) = Ok wav /\
  (forall (env : gmap string string) (request : list byte) (body : json),
      readJsonBody request = Ok body ->
      get_field (fields_of body) "audioBase64" =
        Some (JString (js (base64_encode wav))) ->
      wav <> [] ->
      truthy_opt (get_field (fields_of body) "referenceText") = true ->
      truthy_opt (get_field (fields_of body) "locale") = true ->
      env_truthy (assess_speechKey env) = true ->
      env_truthy (assess_speechRegion env) = true ->
      assess_try env request =
      assess_audio (assess_speechKey env) (assess_speechRegion env)
        (get_field (fields_of body) "locale")
        (get_field (fields_of body) "referenceText") wav).
Proof.
  assert (Buffer_from_base64 (Some (JString (js (base64_encode wav)))) = Ok wav)
    as Hdec.
  { cbn [Buffer_from_base64]. f_equal. apply base64_round_trip_upto. }
  split; [exact Hdec|].
  intros env request body Hbody Haudio Hne Ht Hl Hk Hr.
  apply assess_try_reaches_parser.
  repeat split; try assumption; rewrite Haudio; [|exact Hdec].
  cbn [truthy_opt truthy].
  destruct wav as [|a [|b [|c rest]]]; [congruence|reflexivity..].
Qed.

End Upload.

Lemma assess_base64_round_trip_witness :
  @assess_try test_runtime configured_env (request_of_wav fixture) =
  @assess_audio test_runtime
    (assess_speechKey configured_env) (assess_speechRegion configured_env)
    (Some (JString (js "zh-CN"))) (Some (JString (js "ni hao"))) fixture.
Proof.
  apply (proj2 (@assess_base64_round_trip test_runtime fixture)
           configured_env (request_of_wav fixture)
           (JObject [(js "audioBase64", JString (js (base64_encode fixture)));
                     (js "referenceText", JString (js "ni hao"));
                     (js "locale", JString (js "zh-CN"))])).
  - vm_compute. reflexivity.
  - vm_compute. reflexivity.
  - discriminate.
  - reflexivity.
  - reflexivity.
  - vm_compute. reflexivity.
  - vm_compute. reflexivity.
Defined.

(** X14: on every buffer the parser ends, within as many passes as the
    buffer has bytes; each byte range it asks the buffer for lies inside
    the buffer; and what it throws is one of its own five errors, never a
    RangeError of a read. *)
Theorem parseWav_reads_within_buffer (buf : buffer) :
  Forall (in_bounds buf) (accesses (parseWav buf)) /\
  outcome (parseWav buf) <> OutOfFuel /\
  (forall e : exn,
      outcome (parseWav buf) = Throw e ->
      In e [Error "Invalid WAV buffer.";
            Error "Invalid WAV: expected RIFF/WAVE.";
            Error "Invalid WAV fmt chunk.";
            Error "WAV missing fmt chunk.";
            Error "WAV missing data chunk."]).
Proof.
  pose proof (parseWav_spec buf) as [Hacc Hout].
  split; [exact Hacc|]. split.
  - intros E. rewrite E in Hout. exact Hout.
  - intros e E. rewrite E in Hout.
    destruct Hout as [-> | [-> | [-> | [-> | ->]]]]; cbn [In]; auto 10.
Qed.

Lemma parseWav_reads_within_buffer_witness :
  In (Error "Invalid WAV buffer.")
     [Error "Invalid WAV buffer.";
      Error "Invalid WAV: expected RIFF/WAVE.";
      Error "Invalid WAV fmt chunk.";
      Error "WAV missing fmt chunk.";
      Error "WAV missing data chunk."].
Proof.
  apply (proj2 (proj2 (parseWav_reads_within_buffer [x00; x00; x00]))).
  reflexivity.
Defined.
